(** * CodeStream: user collection, Trello provider and web-view bridge

    A shallow embedding of
    - [UserCollection] / [User] (the lookups over the lazily fetched user
      directory),
    - [TrelloProvider] (boards, lists, createCard, onConnected), and
    - [PostMessageInterop.Handle] (the web-view to host bridge),
    together with the properties the specification states about them. *)

From Stdlib Require Import Ascii String DecimalString.
From stdpp Require Import base option list strings.

Set Default Proof Using "Type".
Local Open Scope string_scope.
Local Open Scope list_scope.

(** ** The JavaScript runtime, as far as the code relies on it *)

Module JS.

(** [String.prototype.toLocaleUpperCase] is a builtin whose mapping depends
    on the host locale; the code is modelled over any such mapping. *)
Class Locale := toLocaleUpperCase : string → string.

(** Truthiness of an optional boolean property ([undefined] is falsy). *)
Definition truthy (b : option bool) : bool :=
  match b with
  | Some true => true
  | _ => false
  end.

(** Truthiness of an optional string ([undefined] and [""] are falsy). *)
Definition truthy_string (s : option string) : bool :=
  match s with
  | Some (String _ _) => true
  | _ => false
  end.

(** Template-literal interpolation [`${x}`] of a possibly undefined string. *)
Definition interpolate (s : option string) : string :=
  default "undefined" s.

(** [a === b] on strings. *)
Definition strict_eq (a b : string) : bool := bool_decide (a = b).

(** [s.startsWith(prefix)] *)
Fixpoint startsWith (s prefix : string) {struct prefix} : bool :=
  match prefix with
  | EmptyString => true
  | String a prefix' =>
      match s with
      | EmptyString => false
      | String b s' => if Ascii.eqb a b then startsWith s' prefix' else false
      end
  end.

(** [xs.includes(x)] on an array of strings. *)
Definition includes (xs : list string) (x : string) : bool :=
  existsb (strict_eq x) xs.

(** Upper-casing of the letters [a]-[z], every other character kept: what
    [toLocaleUpperCase] does on ASCII text outside the Turkic locales. *)
Definition upper_ascii (c : ascii) : ascii :=
  let n := nat_of_ascii c in
  if (97 <=? n)%nat && (n <=? 122)%nat then ascii_of_nat (n - 32) else c.

Fixpoint upper_string (s : string) : string :=
  match s with
  | EmptyString => EmptyString
  | String c s' => String (upper_ascii c) (upper_string s')
  end.

Definition ascii_locale : Locale := upper_string.

End JS.

(** ** Outcome of a promise *)

Inductive Outcome (E A : Type) :=
| Fulfilled (a : A)
| Rejected (e : E).
Arguments Fulfilled {E A} a.
Arguments Rejected {E A} e.

(** ** [Iterables] (system helpers) *)

Module Iterables.

(** Modelled from the spec: [Iterables.find] of the system module, whose
    source is not part of the excerpt; "returns the first match or not
    found". *)
Fixpoint find {A} (source : list A) (predicate : A → bool) : option A :=
  match source with
  | [] => None
  | x :: rest => if predicate x then Some x else find rest predicate
  end.

(** Modelled from the spec: [Iterables.filter] of the system module, whose
    source is not part of the excerpt; "filters the cached sequence". *)
Fixpoint filter {A} (source : list A) (predicate : A → bool) : list A :=
  match source with
  | [] => []
  | x :: rest =>
      if predicate x then x :: filter rest predicate else filter rest predicate
  end.

End Iterables.

(** ** [CodeStreamCollection] (base class of the collections) *)

Module Collection.

(** The body of an async method of a collection, seen from the collection:
    it either finishes with a value or awaits [this.items()] and goes on
    with the items it is given. *)
Inductive Async (TItem A : Type) :=
| Ret (a : A)
| AwaitItems (k : list TItem → Async TItem A).
Arguments Ret {TItem A} a.
Arguments AwaitItems {TItem A} k.

Fixpoint bind {TItem A B} (m : Async TItem A) (f : A → Async TItem B)
  : Async TItem B :=
  match m with
  | Ret a => f a
  | AwaitItems k => AwaitItems (λ us, bind (k us) f)
  end.

(** [await this.items()] *)
Definition items {TItem} : Async TItem (list TItem) := AwaitItems Ret.

(** Running a method body against an already populated cache. *)
Fixpoint resume {TItem A} (us : list TItem) (m : Async TItem A) : A :=
  match m with
  | Ret a => a
  | AwaitItems k => resume us (k us)
  end.

Section Machine.
(** [TItem], [TEntity] and the abstract [entityMapper]; the abstract
    [fetch] is a remote call, whose answer arrives as an event. *)
Context {TItem TEntity Error A : Type}.
Variable entityMapper : TEntity → TItem.

Definition Caller := nat.

(** Modelled from the spec: the state of [CodeStreamCollection], whose
    source is not part of the excerpt: "owns an optional cached ordered
    sequence of entities", with "at-most-one in-flight fetch per
    collection instance". [inflight] holds the callers awaiting the
    fetch in flight; [fetchCalls] counts the calls of [fetch()] made so far. *)
Record State := mkState {
  cache : option (list TItem);
  inflight : option (list (Caller * (list TItem → Async TItem A)));
  fetchCalls : nat
}.

(** "cache is empty at construction" *)
Definition empty : State :=
  {| cache := None; inflight := None; fetchCalls := 0 |}.

Inductive Event :=
| Call (c : Caller) (m : Async TItem A)   (* a consumer calls a method *)
| FetchResolved (raws : list TEntity)     (* the fetch in flight succeeds *)
| FetchRejected (e : Error)               (* the fetch in flight fails *)
| Invalidate.                             (* the explicit refresh signal *)

(** What a caller's promise settles to. *)
Definition Settled : Type := Caller * Outcome Error A.

(** Modelled from the spec: [items()] of [CodeStreamCollection]: "returns
    the cached sequence, fetching and mapping from the external source on
    first call", "later callers awaiting the same in-flight fetch rather
    than issuing a second one". *)
Definition call (s : State) (c : Caller) (m : Async TItem A)
  : State * list Settled :=
  match m with
  | Ret a => (s, [(c, Fulfilled a)])
  | AwaitItems k =>
      match cache s with
      | Some us => (s, [(c, Fulfilled (resume us (k us)))])
      | None =>
          match inflight s with
          | Some ws =>
              ({| cache := None;
                  inflight := Some (ws ++ [(c, k)]);
                  fetchCalls := fetchCalls s |}, [])
          | None =>
              ({| cache := None;
                  inflight := Some [(c, k)];
                  fetchCalls := S (fetchCalls s) |}, [])
          end
      end
  end.

(** Modelled from the spec: the end of a fetch: "either the fetch fully
    succeeds and the cache is populated, or it fails and the cache remains
    unset for the next call to retry"; failures "propagate to the caller
    of [items()] (or whichever lookup triggered it)". *)
Definition resolved (s : State) (raws : list TEntity)
  : State * list Settled :=
  match inflight s with
  | Some ws =>
      let us := map entityMapper raws in
      ({| cache := Some us; inflight := None; fetchCalls := fetchCalls s |},
       map (λ w, (w.1, Fulfilled (resume us (w.2 us)))) ws)
  | None => (s, [])
  end.

(** Modelled from the spec: the failing end of a fetch (see [resolved]):
    "surfaced unchanged to the caller, no local recovery". *)
Definition rejected (s : State) (e : Error) : State * list Settled :=
  match inflight s with
  | Some ws =>
      ({| cache := cache s; inflight := None; fetchCalls := fetchCalls s |},
       map (λ w, (w.1, Rejected e)) ws)
  | None => (s, [])
  end.

(** Modelled from the spec: "invalidated and re-populated only on an
    explicit refresh signal (not shown in the excerpted code)". *)
Definition invalidate (s : State) : State :=
  {| cache := None; inflight := inflight s; fetchCalls := fetchCalls s |}.

Definition step (s : State) (ev : Event) : State * list Settled :=
  match ev with
  | Call c m => call s c m
  | FetchResolved raws => resolved s raws
  | FetchRejected e => rejected s e
  | Invalidate => (invalidate s, [])
  end.

(** A run: the final state and every settlement, in order. *)
Fixpoint run (s : State) (tr : list Event) : State * list Settled :=
  match tr with
  | [] => (s, [])
  | ev :: tr' =>
      let '(s1, out1) := step s ev in
      let '(s2, out2) := run s1 tr' in
      (s2, out1 ++ out2)
  end.

Definition is_invalidate (ev : Event) : bool :=
  match ev with Invalidate => true | _ => false end.

Definition is_failure (ev : Event) : bool :=
  match ev with FetchRejected _ => true | _ => false end.

(** A call that reaches [this.items()]. *)
Definition is_lookup (ev : Event) : bool :=
  match ev with Call _ (AwaitItems _) => true | _ => false end.

(** An event that neither invalidates the cache nor fails a fetch. *)
Definition quiet (ev : Event) : bool :=
  negb (is_invalidate ev) && negb (is_failure ev).

(** The collection holds items or is waiting for them. *)
Definition armed (s : State) : bool :=
  match cache s, inflight s with
  | None, None => false
  | _, _ => true
  end.

(** Every settlement of [out] fulfils a call of [tr], or one of the
    waiters [ws], with what that call computes from the items [us]. *)
Definition served (us : list TItem)
    (ws : list (Caller * (list TItem → Async TItem A)))
    (tr : list Event) (out : list Settled) : Prop :=
  Forall (λ co : Settled, ∃ m,
    (In (Call co.1 m) tr ∨ ∃ k, m = AwaitItems k ∧ In (co.1, k) ws)
    ∧ co.2 = Fulfilled (resume us m)) out.

End Machine.

Arguments State : clear implicits.
Arguments Event : clear implicits.
Arguments Settled : clear implicits.

End Collection.

(** ** [User] and [UserCollection] *)

Module Users.
Import JS Collection.

(** The session a collection belongs to; opaque to the code modelled here. *)
Record CodeStreamSession := { sessionId : nat }.

(** The raw user record of the backend ([CSUser]): the fields read here. *)
Record CSUser := {
  id : string;
  email : string;
  username : string
}.

(** [class User extends CodeStreamItem<CSUser>] *)
Record User := {
  session : CodeStreamSession;
  entity : CSUser
}.

Module User.
(** [get email() { return this.entity.email; }] *)
Definition email (this : User) : string := email (entity this).
(** [get name() { return this.entity.username; }] *)
Definition name (this : User) : string := username (entity this).
End User.

(** [options: { ignoreCase?: boolean }] *)
Record Options := { ignoreCase : option bool }.

(** [class UserCollection extends CodeStreamCollection<User, CSUser>] *)
Record UserCollection := {
  collection_session : CodeStreamSession;
  teamId : string
}.

Section Methods.
Context `{Locale}.
Variable this : UserCollection.

(** The default of the [options] parameter, used when the argument is
    omitted (or [undefined]). *)
Definition default_options : Options := {| ignoreCase := Some true |}.

Definition getByEmail (email : string) (options : option Options)
  : Async User (option User) :=
  let options := default default_options options in
  let email :=
    if truthy (ignoreCase options) then toLocaleUpperCase email else email in
  bind items (λ us,
    Ret (Iterables.find us (λ u,
      strict_eq
        (if truthy (ignoreCase options)
         then toLocaleUpperCase (User.email u) else User.email u)
        email))).

Definition getByEmails (emails : list string) (options : option Options)
  : Async User (list User) :=
  let options := default default_options options in
  let emails :=
    if truthy (ignoreCase options)
    then map (λ email, toLocaleUpperCase email) emails else emails in
  bind items (λ us,
    Ret (Iterables.filter us (λ u,
      includes emails
        (if truthy (ignoreCase options)
         then toLocaleUpperCase (User.email u) else User.email u)))).

Definition getByName (name : string) (options : option Options)
  : Async User (option User) :=
  let options := default default_options options in
  let name :=
    if truthy (ignoreCase options) then toLocaleUpperCase name else name in
  bind items (λ us,
    Ret (Iterables.find us (λ u,
      strict_eq
        (if truthy (ignoreCase options)
         then toLocaleUpperCase (User.name u) else User.name u)
        name))).

(** [entityMapper(e) { return new User(this.session, e); }] *)
Definition entityMapper (e : CSUser) : User :=
  {| session := collection_session this; entity := e |}.

End Methods.

(** What a call on the collection answers: the three lookups have different
    result types, gathered here so that callers of all kinds can wait on one
    collection. *)
Inductive Answer :=
| AUser (u : option User)
| AUsers (us : list User).

Definition asUser (m : Async User (option User)) : Async User Answer :=
  bind m (λ u, Ret (AUser u)).
Definition asUsers (m : Async User (list User)) : Async User Answer :=
  bind m (λ us, Ret (AUsers us)).

(** Transport or authentication failure of [session.api.getUsers()]. *)
Inductive ApiError := NetworkError (detail : string) | AuthError (detail : string).

End Users.

(** ** [TrelloProvider] *)

Module Trello.
Import JS.

(** *** Protocol types (the fields the provider reads or forwards) *)

Record TrelloBoard := {
  board_id : string;
  board_name : string;
  board_closed : option bool;
  idOrganization : option string
}.

Record TrelloList := {
  list_id : string;
  list_name : string;
  closed : option bool;
  idBoard : string
}.

Record TrelloFetchBoardsRequest := { organizationId : option string }.
Record TrelloFetchBoardsResponse := { boards_of : list TrelloBoard }.
Record TrelloFetchListsRequest := { boardId : string }.
Record TrelloFetchListsResponse := { lists_of : list TrelloList }.
Record TrelloCreateCardRequest := {
  listId : string;
  name : string;
  description : string
}.
Record TrelloCreateCardResponse := { card_id : string; card_url : string }.
Record TokenInfo := { idMember : string }.

Record CSTrelloProviderInfo := { info_apiKey : string }.

(** *** The HTTP layer of [ThirdPartyProviderBase] *)

Inductive Method := GET | POST.

(** A request as it leaves the provider: the path of the URL and the object
    handed to [qs.stringify], property by property. *)
Record HttpRequest := {
  method : Method;
  path : string;
  query : list (string * option string)
}.

Record ApiResponse (R : Type) := { body : R }.
Arguments body {R} _.

Inductive HttpError := TransportError (status : nat) (detail : string).

(** What the remote service answers to a request, given the requests it has
    seen before, for each response type the provider asks for with
    [this.get<R>] and [this.post<_, R>]. *)
Definition Endpoint (R : Type) : Type :=
  list HttpRequest → HttpRequest → Outcome HttpError (ApiResponse R).

Record Remote := {
  tokenEndpoint : Endpoint TokenInfo;
  boardsEndpoint : Endpoint (list TrelloBoard);
  listsEndpoint : Endpoint (list TrelloList);
  cardsEndpoint : Endpoint TrelloCreateCardResponse
}.

(** The provider instance: its own field [_trelloUserId] and the two
    inherited members it reads, [_providerInfo] and [accessToken] (a getter
    of the base class, whose source is not part of the excerpt; the provider
    only reads it). *)
Record TrelloProvider := {
  _trelloUserId : option string;
  _providerInfo : option CSTrelloProviderInfo;
  accessToken : option string
}.

(** The provider together with everything it has sent so far. *)
Record World := {
  this : TrelloProvider;
  wire : list HttpRequest
}.

(** Async methods of the provider: they read and write [this], talk to the
    remote, and either return or throw. *)
Definition M (A : Type) : Type := World → Outcome HttpError A * World.

#[global] Instance M_ret : MRet M := λ A a w, (Fulfilled a, w).
#[global] Instance M_bind : MBind M := λ A B f m w,
  match m w with
  | (Fulfilled a, w') => f a w'
  | (Rejected e, w') => (Rejected e, w')
  end.

Definition self : M TrelloProvider := λ w, (Fulfilled (this w), w).

(** The world once [rq] has gone out. *)
Definition sent (w : World) (rq : HttpRequest) : World :=
  {| this := this w; wire := wire w ++ [rq] |}.

(** Modelled from the spec: [get] and [post] of [ThirdPartyProviderBase],
    whose source is not part of the excerpt: one HTTP call per use, and
    "HTTP/transport errors surface to the caller; no retry or backoff". *)
Definition send {R} (ep : Endpoint R) (rq : HttpRequest) : M (ApiResponse R) :=
  λ w, (ep (wire w) rq, sent w rq).

Definition get {R} (ep : Endpoint R) (path : string)
    (query : list (string * option string)) : M (ApiResponse R) :=
  send ep {| method := GET; path := path; query := query |}.

Definition post {R} (ep : Endpoint R) (path : string)
    (query : list (string * option string)) : M (ApiResponse R) :=
  send ep {| method := POST; path := path; query := query |}.

Definition set_trelloUserId (v : option string) : M () := λ w,
  (Fulfilled (),
   {| this := {| _trelloUserId := v;
                 _providerInfo := _providerInfo (this w);
                 accessToken := accessToken (this w) |};
      wire := wire w |}).

Section Methods.
Variable remote : Remote.

(** [return this._providerInfo && this._providerInfo.apiKey;] *)
Definition apiKey (p : TrelloProvider) : option string :=
  info_apiKey <$> _providerInfo p.

Definition getMemberId : M string :=
  p ← self;
  tokenResponse ← get (tokenEndpoint remote)
    ("/token/" +:+ interpolate (accessToken p))
    [("key", apiKey p); ("token", accessToken p)];
  mret (idMember (body tokenResponse)).

Definition onConnected : M () :=
  v ← getMemberId;
  set_trelloUserId (Some v).

Definition boards (request : TrelloFetchBoardsRequest)
  : M TrelloFetchBoardsResponse :=
  p ← self;
  response ← get (boardsEndpoint remote)
    ("/members/" +:+ interpolate (_trelloUserId p) +:+ "/boards")
    [("filter", Some "open");
     ("fields", Some "id,name,desc,descData,closed,idOrganization,pinned,url,labelNames,starred");
     ("lists", Some "open");
     ("key", apiKey p);
     ("token", accessToken p)];
  mret {| boards_of :=
    if truthy_string (organizationId request)
    then List.filter
           (λ b, bool_decide (idOrganization b = organizationId request))
           (body response)
    else body response |}.

Definition createCard (request : TrelloCreateCardRequest)
  : M TrelloCreateCardResponse :=
  p ← self;
  response ← post (cardsEndpoint remote) "/cards"
    [("idList", Some (listId request));
     ("name", Some (name request));
     ("desc", Some (description request));
     ("key", apiKey p);
     ("token", accessToken p)];
  mret (body response).

Definition lists (request : TrelloFetchListsRequest)
  : M TrelloFetchListsResponse :=
  p ← self;
  response ← get (listsEndpoint remote)
    ("/boards/" +:+ boardId request +:+ "/lists")
    [("key", apiKey p); ("token", accessToken p)];
  mret {| lists_of :=
    List.filter (λ l, negb (truthy (closed l))) (body response) |}.

(** The requests a connected provider serves. *)
Inductive Operation :=
| Boards (request : TrelloFetchBoardsRequest)
| Lists (request : TrelloFetchListsRequest)
| CreateCard (request : TrelloCreateCardRequest).

(** Serving one request; its outcome goes to the requester and does not
    stop the provider. *)
Definition serve (op : Operation) (w : World) : World :=
  match op with
  | Boards request => (boards request w).2
  | Lists request => (lists request w).2
  | CreateCard request => (createCard request w).2
  end.

Definition serve_all (ops : list Operation) (w : World) : World :=
  fold_left (λ w op, serve op w) ops w.

End Methods.

(** *** The requests the methods send *)

Definition whoami_request (p : TrelloProvider) : HttpRequest :=
  {| method := GET;
     path := "/token/" +:+ interpolate (accessToken p);
     query := [("key", apiKey p); ("token", accessToken p)] |}.

Definition boards_request (p : TrelloProvider) : HttpRequest :=
  {| method := GET;
     path := "/members/" +:+ interpolate (_trelloUserId p) +:+ "/boards";
     query :=
       [("filter", Some "open");
        ("fields", Some "id,name,desc,descData,closed,idOrganization,pinned,url,labelNames,starred");
        ("lists", Some "open");
        ("key", apiKey p);
        ("token", accessToken p)] |}.

Definition lists_request (p : TrelloProvider)
    (request : TrelloFetchListsRequest) : HttpRequest :=
  {| method := GET;
     path := "/boards/" +:+ boardId request +:+ "/lists";
     query := [("key", apiKey p); ("token", accessToken p)] |}.

Definition card_request (p : TrelloProvider)
    (request : TrelloCreateCardRequest) : HttpRequest :=
  {| method := POST;
     path := "/cards";
     query :=
       [("idList", Some (listId request));
        ("name", Some (name request));
        ("desc", Some (description request));
        ("key", apiKey p);
        ("token", accessToken p)] |}.

Definition request_of (p : TrelloProvider) (op : Operation) : HttpRequest :=
  match op with
  | Boards _ => boards_request p
  | Lists request => lists_request p request
  | CreateCard request => card_request p request
  end.

(** The "who am I" call: a [GET] of [/token/...]. *)
Definition is_whoami (rq : HttpRequest) : bool :=
  match method rq with
  | GET => startsWith (path rq) "/token/"
  | POST => false
  end.

(** The value a request carries in its [token] query parameter. *)
Definition token_param (rq : HttpRequest) : option string :=
  match List.find (λ kv, bool_decide (kv.1 = "token")) (query rq) with
  | Some kv => kv.2
  | None => None
  end.

End Trello.

(** ** [PostMessageInterop] *)

Module Interop.

(** [WindowEventArgs]: carries the message. *)
Record WindowEventArgs := { Message : string }.

(** An instance of [PostMessageInterop] (it has no instance fields). *)
Record PostMessageInterop := { instance : nat }.

Section Handle.
(** Whatever a handler can act on. *)
Context {Host : Type}.

(** [delegate void WindowMessageHandler(object sender, WindowEventArgs e)] *)
Definition WindowMessageHandler : Type :=
  PostMessageInterop → WindowEventArgs → Host → Host.

(** The static field [MessageHandler]; [None] is [null]. *)
Record Statics := { MessageHandler : option WindowMessageHandler }.

Definition Handle (this : PostMessageInterop) (message origin : string)
    (st : Statics) (host : Host) : Host :=
  match MessageHandler st with
  | None => host
  | Some handler => handler this {| Message := message |} host
  end.

(** [AddWindowMessageEvent] of the browser service. *)
Definition AddWindowMessageEvent (messageHandler : WindowMessageHandler)
    (st : Statics) : Statics :=
  {| MessageHandler := Some messageHandler |}.
End Handle.

Arguments Statics : clear implicits.
Arguments WindowMessageHandler : clear implicits.

End Interop.

(** ** Vocabulary of the specification *)

Module Spec.
Import JS.

(** [r] is the first element of [us] that satisfies [P], or [None] when no
    element does. *)
Definition first_match {A} (P : A → Prop) (us : list A) (r : option A) : Prop :=
  match r with
  | Some u => ∃ before after,
      us = before ++ u :: after ∧ P u ∧ Forall (λ v, ¬ P v) before
  | None => Forall (λ v, ¬ P v) us
  end.

(** The case-folding rule of a lookup: upper-casing when [ignoreCase] is
    set, the string itself otherwise. *)
Definition fold `{Locale} (ignoreCase : bool) (s : string) : string :=
  if ignoreCase then toLocaleUpperCase s else s.

(** Two strings are equal up to case variation when upper-casing makes them
    equal. *)
Definition equal_ignoring_case `{Locale} (a b : string) : Prop :=
  toLocaleUpperCase a = toLocaleUpperCase b.

(** The flag a lookup of [UserCollection] works with, once the default of
    its [options] parameter has been applied. *)
Definition effective (o : option Users.Options) : bool :=
  truthy (Users.ignoreCase (default Users.default_options o)).

(** Character by character: equal, or one the upper-case form of the other. *)
Definition same_letter (c d : ascii) : Prop :=
  c = d ∨ upper_ascii c = d ∨ c = upper_ascii d.

Inductive case_variant : string → string → Prop :=
| cv_nil : case_variant "" ""
| cv_cons c d s t :
    same_letter c d → case_variant s t →
    case_variant (String c s) (String d t).

(** The 256 characters, and the comparison of the two readings of "same
    letter" on a pair of them. *)
Definition all_ascii : list ascii := map ascii_of_nat (seq 0 256).

Definition same_letter_agrees (c d : ascii) : bool :=
  Bool.eqb (Ascii.eqb (upper_ascii c) (upper_ascii d))
           (Ascii.eqb c d || Ascii.eqb (upper_ascii c) d
            || Ascii.eqb c (upper_ascii d)).

End Spec.

(** ** Letter case of ASCII text, and a Turkic host *)

Module Casing.
Import JS.

(** The text holds ASCII characters only. *)
Fixpoint is_ascii (s : string) : bool :=
  match s with
  | EmptyString => true
  | String c s' => (nat_of_ascii c <? 128)%nat && is_ascii s'
  end.

(** [C] is the capital of the small letter [c]. *)
Definition capital_of (c C : ascii) : bool :=
  let n := nat_of_ascii c in
  (97 <=? n)%nat && (n <=? 122)%nat && (nat_of_ascii C =? n - 32)%nat.

(** The same character, or the same letter in the other case. *)
Definition same_letter_either_case (c d : ascii) : bool :=
  Ascii.eqb c d || capital_of c d || capital_of d c.

(** Two texts of the same length that differ, if at all, only in the case of
    their letters. *)
Fixpoint equal_up_to_case (s t : string) : bool :=
  match s, t with
  | EmptyString, EmptyString => true
  | String c s', String d t' =>
      same_letter_either_case c d && equal_up_to_case s' t'
  | _, _ => false
  end.

(** Upper-casing two characters makes them equal exactly when they are the
    same letter in either case. *)
Definition folding_agrees (c d : ascii) : bool :=
  Bool.eqb (Ascii.eqb (upper_ascii c) (upper_ascii d))
           (same_letter_either_case c d).

(** The capital dotted I (U+0130), in UTF-8. *)
Definition capital_dotted_I : string :=
  String (ascii_of_nat 196) (String (ascii_of_nat 176) EmptyString).

(** [toLocaleUpperCase] of ASCII text under a Turkic locale ([tr], [az]): as
    elsewhere, except that the small [i] becomes the capital dotted I. *)
Fixpoint turkic_upper_string (s : string) : string :=
  match s with
  | EmptyString => EmptyString
  | String c s' =>
      if Ascii.eqb c "i"%char
      then capital_dotted_I +:+ turkic_upper_string s'
      else String (upper_ascii c) (turkic_upper_string s')
  end.

Definition turkic_locale : Locale := turkic_upper_string.

Definition irene : Users.CSUser :=
  {| Users.id := "u4"; Users.email := "I@B.com"; Users.username := "Irene" |}.

End Casing.

(** ** Sample data *)

Module Samples.
Import JS Collection Users.

Definition session1 : CodeStreamSession := {| sessionId := 1 |}.

Definition team : UserCollection :=
  {| collection_session := session1; teamId := "team-1" |}.

Definition ann : CSUser :=
  {| id := "u1"; email := "A@B.com"; username := "Ann" |}.
Definition bob : CSUser :=
  {| id := "u2"; email := "bob@c.org"; username := "bob" |}.
Definition ann2 : CSUser :=
  {| id := "u3"; email := "a@b.com"; username := "ANN" |}.

Definition directory : list CSUser := [ann; bob; ann2].

Definition users : list User := map (entityMapper team) directory.

Definition populated : State User Answer :=
  {| cache := Some users; inflight := None; fetchCalls := 1 |}.

Definition fold_case : option Options := Some {| ignoreCase := Some true |}.
Definition exact_case : option Options := Some {| ignoreCase := Some false |}.
Definition no_flag : option Options := Some {| ignoreCase := None |}.

(** Two lookups overlap, the fetch succeeds, a third lookup follows. *)
Definition overlapping : list (Event User CSUser ApiError Answer) :=
  [ Call 1 (asUser (getByEmail (H := ascii_locale) "a@b.COM" None));
    Call 2 (asUser (getByName (H := ascii_locale) "BOB" None));
    FetchResolved directory;
    Call 3 (asUsers (getByEmails (H := ascii_locale) ["BOB@C.ORG"] None)) ].

(** A lookup whose fetch fails, then the same lookup again. *)
Definition retried : list (Event User CSUser ApiError Answer) :=
  [ Call 1 (asUser (getByEmail (H := ascii_locale) "a@b.COM" None));
    FetchRejected (NetworkError "timeout");
    Call 2 (asUser (getByEmail (H := ascii_locale) "a@b.COM" None)) ].

(** A collection with one fetch in flight and two callers waiting on it. *)
Definition waiting : State User Answer :=
  (run (Error := ApiError) (entityMapper team) empty (take 2 overlapping)).1.

(** *** Trello *)

Import Trello.

Definition provider : TrelloProvider :=
  {| _trelloUserId := None;
     _providerInfo := Some {| info_apiKey := "key-1" |};
     accessToken := Some "tok-1" |}.

Definition fresh : World := {| this := provider; wire := [] |}.

Definition board (i org : string) : TrelloBoard :=
  {| board_id := i; board_name := "board " +:+ i; board_closed := Some false;
     idOrganization := Some org |}.

Definition personal_board : TrelloBoard :=
  {| board_id := "b0"; board_name := "mine"; board_closed := Some false;
     idOrganization := None |}.

Definition all_boards : list TrelloBoard :=
  [board "b1" "org-1"; personal_board; board "b2" "org-2"; board "b3" "org-1"].

Definition trello_list (i : string) (c : option bool) : TrelloList :=
  {| list_id := i; list_name := "list " +:+ i; closed := c; idBoard := "b1" |}.

Definition all_lists : list TrelloList :=
  [trello_list "l1" (Some false); trello_list "l2" (Some true);
   trello_list "l3" None; trello_list "l4" (Some true)].

Definition trello : Remote :=
  {| tokenEndpoint := λ _ _, Fulfilled {| body := {| idMember := "member-9" |} |};
     boardsEndpoint := λ _ _, Fulfilled {| body := all_boards |};
     listsEndpoint := λ _ _, Fulfilled {| body := all_lists |};
     cardsEndpoint := λ _ _,
       Fulfilled {| body := {| card_id := "c1"; card_url := "https://trello.com/c/c1" |} |} |}.

Definition work : list Operation :=
  [ Boards {| organizationId := Some "org-1" |};
    Lists {| boardId := "b1" |};
    CreateCard {| listId := "l1"; name := "card"; description := "text" |};
    Boards {| organizationId := None |} ].

(** *** The bridge *)

Import Interop.

(** A host that records what its handler was given. *)
Definition recorder : WindowMessageHandler (list (nat * string)) :=
  λ sender e host, host ++ [(instance sender, Message e)].

End Samples.

(** ** Sessions of a Trello provider *)

Module TrelloSession.
Import Trello.

(** What happens to a provider over its life: it is connected (again), or it
    serves a request. *)
Inductive Action :=
| Connect
| Serve (op : Operation).

Definition act (remote : Remote) (a : Action) (w : World) : World :=
  match a with
  | Connect => (onConnected remote w).2
  | Serve op => serve remote op w
  end.

Definition session (remote : Remote) (actions : list Action) (w : World) : World :=
  fold_left (λ w a, act remote a w) actions w.

Definition is_connect (a : Action) : bool :=
  match a with Connect => true | Serve _ => false end.

(** The value a request carries in its [key] query parameter. *)
Definition key_param (rq : HttpRequest) : option string :=
  match List.find (λ kv, bool_decide (kv.1 = "key")) (query rq) with
  | Some kv => kv.2
  | None => None
  end.

(** The value of a query parameter, when the request has it. *)
Definition param (k : string) (rq : HttpRequest) : option (option string) :=
  snd <$> List.find (λ kv, bool_decide (kv.1 = k)) (query rq).

End TrelloSession.

(** ** [DotNetBrowserService] *)

Module Browser.

(** A thrown exception, by its message. *)
Inductive Exception := Thrown (message : string).

(** What a call that may throw comes to. *)
Inductive Try (A : Type) :=
| Returns (a : A)
| Throws (ex : Exception).
Arguments Returns {A} a.
Arguments Throws {A} ex.

Inductive LogEntry :=
| Verbose (message : string)
| Warning (ex : Exception) (message : string).

(** [FileInfo], as far as it is read. *)
Record FileInfo := {
  Name : string;
  Extension : string;
  FullName : string
}.

(** [DirectoryLockInfo]: the directory it is about and the settable
    [LockFile] ([None] is [null]). *)
Record DirectoryLockInfo := {
  DirectoryPath : string;
  LockFile : option string
}.

(** What the service finds around it: the file system and the helpers that
    are declared elsewhere ([EqualsIgnoreCase], [IsFileLocked],
    [DirectoryLockInfo.HasLocked], [Application.TempDataPath],
    [Path.Combine]). *)
Record Host := {
  EqualsIgnoreCase : string → string → bool;
  IsFileLocked : string → Try bool;
  HasLocked : DirectoryLockInfo → bool;
  DirectoryExists : string → bool;
  GetFiles : string → Try (list FileInfo);
  TempDataPath : string;
  PathCombine : string → string → string
}.

(** An interpolated [int]. *)
Definition format_int (i : nat) : string :=
  NilEmpty.string_of_uint (Nat.to_uint i).

(** An interpolated [bool]. *)
Definition format_bool (b : bool) : string := if b then "True" else "False".

(** An interpolated string that may be [null]. *)
Definition format_string (s : option string) : string := default "" s.

Section Service.
Variable host : Host.

(** The [foreach] of [TryCheckUsage]: [Returns (Some f)] is [return true]
    with [LockFile] set to [f], [Returns None] is the end of the loop. *)
Fixpoint scan (files : list FileInfo) (fileKnownToBeLocked : string)
  : Try (option string) :=
  match files with
  | [] => Returns None
  | file :: rest =>
      if EqualsIgnoreCase host (Extension file) ".lock"
      then Returns (Some (FullName file))
      else if EqualsIgnoreCase host (Name file) fileKnownToBeLocked
      then match IsFileLocked host (FullName file) with
           | Throws ex => Throws ex
           | Returns true => Returns (Some (FullName file))
           | Returns false => scan rest fileKnownToBeLocked
           end
      else scan rest fileKnownToBeLocked
  end.

(** [TryCheckUsage]: the returned flag, the [out] parameter and what was
    logged. *)
Definition TryCheckUsage (directoryPath : string)
    (fileKnownToBeLocked : option string)
  : bool * DirectoryLockInfo * list LogEntry :=
  let fileKnownToBeLocked := default "History" fileKnownToBeLocked in
  let lockInfo := {| DirectoryPath := directoryPath; LockFile := None |} in
  if negb (DirectoryExists host directoryPath) then (false, lockInfo, [])
  else
    match GetFiles host directoryPath with
    | Throws ex => (true, lockInfo, [Warning ex "IsInUse?"])
    | Returns files =>
        match scan files fileKnownToBeLocked with
        | Throws ex => (true, lockInfo, [Warning ex "IsInUse?"])
        | Returns (Some f) =>
            (true, {| DirectoryPath := directoryPath; LockFile := Some f |}, [])
        | Returns None => (false, lockInfo, [])
        end
    end.

(** [Path.Combine(Application.TempDataPath, $"Browser-{i}")] *)
Definition candidate (i : nat) : string :=
  PathCombine host (TempDataPath host) ("Browser-" +:+ format_int i).

(** The [for] loop of [GetOrCreateContextParamsPath], with [n] rounds to go,
    the counter at [i] and [path] as assigned so far. *)
Fixpoint probe (n i : nat) (path : option string) : option string * list LogEntry :=
  match n with
  | 0 => (path, [])
  | S n' =>
      let path := candidate i in
      if DirectoryExists host path then
        let '(isLocked, lockInfo, logged) := TryCheckUsage path None in
        if HasLocked host lockInfo then
          let '(result, rest) := probe n' (S i) (Some path) in
          (result,
           logged
           ++ [Verbose (path +:+ "|" +:+ format_string (LockFile lockInfo)
                        +:+ " IsLocked=" +:+ format_bool isLocked)]
           ++ rest)
        else
          (Some path,
           logged ++ [Verbose ("Using " +:+ path +:+ " -- (Not locked, use this)")])
      else
        (Some path, [Verbose ("Using " +:+ path +:+ " -- (Doesn't exist)")])
  end.

Definition defaultPath : string := TempDataPath host +:+ "Browser-0".

(** [GetOrCreateContextParamsPath]: the returned path ([None] is [null]) and
    what was logged. *)
Definition GetOrCreateContextParamsPath : option string * list LogEntry :=
  let opening := [Verbose ("DefaultPath=" +:+ defaultPath)] in
  let '(inUse, info, logged) := TryCheckUsage defaultPath None in
  if negb inUse then
    if negb (HasLocked host info) then
      (Some defaultPath,
       opening ++ logged
       ++ [Verbose ("Reusing " +:+ defaultPath +:+ " (not locked)")])
    else
      let '(result, rest) := probe 1999 1 None in
      (result,
       opening ++ logged
       ++ [Verbose ("Could not reuse $" +:+ defaultPath +:+ " - $"
                    +:+ format_string (LockFile info))]
       ++ rest)
  else
    let '(result, rest) := probe 1999 1 None in
    (result, opening ++ logged ++ rest).

(** The default directory is taken: it is not reported in use and its lock
    info does not say locked. *)
Definition default_reusable : bool :=
  let '(inUse, info, _) := TryCheckUsage defaultPath None in
  negb inUse && negb (HasLocked host info).

(** The loop passes over candidate [i]: the directory exists and its lock
    info says locked. *)
Definition passed_over (i : nat) : bool :=
  DirectoryExists host (candidate i)
  && HasLocked host (TryCheckUsage (candidate i) None).1.2.

(** A file that makes [TryCheckUsage] report a lock. *)
Definition locks (fileKnownToBeLocked : string) (file : FileInfo) : Prop :=
  EqualsIgnoreCase host (Extension file) ".lock" = true
  ∨ (EqualsIgnoreCase host (Name file) fileKnownToBeLocked = true
     ∧ IsFileLocked host (FullName file) = Returns true).

(** A file that [TryCheckUsage] looks at and passes. *)
Definition passes (fileKnownToBeLocked : string) (file : FileInfo) : Prop :=
  EqualsIgnoreCase host (Extension file) ".lock" = false
  ∧ (EqualsIgnoreCase host (Name file) fileKnownToBeLocked = false
     ∨ IsFileLocked host (FullName file) = Returns false).


End Service.

(** *** Disposal *)

(** The browser view, by identity. *)
Record BrowserView := { viewId : nat }.

(** The fields of the service that [Dispose] reads and writes. *)
Record Service := {
  _browserView : option BrowserView;
  _path : string;
  _disposed : bool
}.

(** The calls [Dispose] makes on the view, in the order it makes them. *)
Inductive Teardown :=
| Unsubscribe        (* Browser.ScriptContextCreated -= ... *)
| DisposeView        (* _browserView.Dispose() *)
| DisposeBrowser     (* _browserView.Browser.Dispose() *)
| DisposeContext.    (* _browserView.Browser.Context.Dispose() *)

(** What [Dispose] does to the outside; [Called] and [DirectoryDelete] stand
    for the call being made, whether it returns or throws. *)
Inductive Effect :=
| Logged (entry : LogEntry)
| Called (call : Teardown)
| DirectoryDelete (path : string) (recursive : bool).

(** How the outside behaves during one [Dispose]: whether the view reports
    itself disposed, which teardown call throws, and which attempt at
    deleting the directory throws. *)
Record Outside := {
  IsDisposed : BrowserView → bool;
  teardownThrows : Teardown → option Exception;
  deleteThrows : nat → option Exception
}.

Section Dispose.
Variable out : Outside.

(** The teardown calls, up to the first that throws. *)
Fixpoint teardown (calls : list Teardown) : list Effect * option Exception :=
  match calls with
  | [] => ([], None)
  | call :: rest =>
      match teardownThrows out call with
      | Some ex => ([Called call], Some ex)
      | None => let '(done, thrown) := teardown rest in (Called call :: done, thrown)
      end
  end.

(** The [for] loop over the attempts at deleting [_path], with [n] rounds to
    go and the counter at [i]. *)
Fixpoint cleanup (n i : nat) (deleted : bool) (path : string) : list Effect :=
  match n with
  | 0 => []
  | S n' =>
      if deleted then []
      else
        match deleteThrows out i with
        | None =>
            [DirectoryDelete path true;
             Logged (Verbose ("Cleaned up " +:+ path +:+ " on "
                              +:+ format_int (i + 1) +:+ " attempt"))]
            ++ cleanup n' (S i) true path
        | Some ex =>
            [DirectoryDelete path true;
             Logged (Warning ex ("Could not delete attempt ("
                                 +:+ format_int (i + 1) +:+ ") " +:+ path))]
            ++ cleanup n' (S i) false path
        end
  end.

Definition Dispose (disposing : bool) (s : Service) : Service * list Effect :=
  if _disposed s then (s, [])
  else if disposing then
    match _browserView s with
    | None => (s, [Logged (Verbose "DotNetBrowser is null")])
    | Some view =>
        if IsDisposed out view
        then (s, [Logged (Verbose "DotNetBrowser already disposed")])
        else
          match teardown [Unsubscribe; DisposeView; DisposeBrowser; DisposeContext] with
          | (done, Some ex) =>
              ({| _browserView := Some view; _path := _path s; _disposed := true |},
               done ++ [Logged (Warning ex "DotNetBrowser dispose failure")])
          | (done, None) =>
              ({| _browserView := None; _path := _path s; _disposed := true |},
               done ++ cleanup 5 0 false (_path s)
               ++ [Logged (Verbose "DotNetBrowser Disposed")])
          end
    end
  else (s, []).

End Dispose.



(** *** Messages to the web view *)

(** The double quote. *)
Definition quote : string := String (ascii_of_nat 34) "".

(** The script [PostMessage] hands to [ExecuteJavaScript]. *)
Definition PostMessage_script (message : string) : string :=
  "window.postMessage(" +:+ message +:+ "," +:+ quote +:+ "*" +:+ quote +:+ ");".

(** [PostMessage]: the script executed in the view; with no view, the
    dereference of [_browserView] throws. *)
Definition PostMessage (message : string) (s : Service) : Try string :=
  match _browserView s with
  | None => Throws (Thrown "NullReferenceException")
  | Some _ => Returns (PostMessage_script message)
  end.

(** Reading the message back out of a script. *)
Definition message_of_script (script : string) : string :=
  substring 19 (String.length script - 25) script.

(** *** Registration of the message handler *)

(** [AddWindowMessageEvent] called with each of [handlers] in turn. *)
Definition register_all {Host : Type}
    (handlers : list (Interop.WindowMessageHandler Host))
    (st : Interop.Statics Host) : Interop.Statics Host :=
  fold_left (λ st h, Interop.AddWindowMessageEvent h st) handlers st.

End Browser.

(** ** Sample hosts *)

Module BrowserSamples.
Import JS Browser.

(** [HasLocked] as "a lock file is named". *)
Definition has_lock_file (info : DirectoryLockInfo) : bool :=
  match LockFile info with Some _ => true | None => false end.

Definition same_ignoring_case (a b : string) : bool :=
  bool_decide (upper_string a = upper_string b).

Definition lock_file (dir : string) : FileInfo :=
  {| Name := "a1b2.LOCK"; Extension := ".LOCK";
     FullName := dir +:+ "\a1b2.LOCK" |}.

Definition history_file (dir : string) : FileInfo :=
  {| Name := "history"; Extension := ""; FullName := dir +:+ "\history" |}.

Definition cache_file (dir : string) : FileInfo :=
  {| Name := "Cache.db"; Extension := ".db"; FullName := dir +:+ "\Cache.db" |}.

(** Every directory exists and holds a [.lock] file after some other file. *)
Definition all_locked : Host :=
  {| EqualsIgnoreCase := same_ignoring_case;
     IsFileLocked := λ _, Returns false;
     HasLocked := has_lock_file;
     DirectoryExists := λ _, true;
     GetFiles := λ dir, Returns [cache_file dir; lock_file dir; history_file dir];
     TempDataPath := "C:\Temp\";
     PathCombine := λ a b, a +:+ b |}.

(** Every directory exists and none can be listed. *)
Definition unreadable : Host :=
  {| EqualsIgnoreCase := same_ignoring_case;
     IsFileLocked := λ _, Returns false;
     HasLocked := has_lock_file;
     DirectoryExists := λ _, true;
     GetFiles := λ _, Throws (Thrown "UnauthorizedAccessException");
     TempDataPath := "C:\Temp\";
     PathCombine := λ a b, a +:+ b |}.

(** [Browser-0] and [Browser-1] exist, with a [History] file that is locked;
    nothing else exists. *)
Definition two_running : Host :=
  {| EqualsIgnoreCase := same_ignoring_case;
     IsFileLocked := λ f, Returns (same_ignoring_case f "C:\Temp\Browser-0\history"
                                   || same_ignoring_case f "C:\Temp\Browser-1\history");
     HasLocked := has_lock_file;
     DirectoryExists := λ dir,
       bool_decide (dir = "C:\Temp\Browser-0") || bool_decide (dir = "C:\Temp\Browser-1");
     GetFiles := λ dir, Returns [cache_file dir; history_file dir];
     TempDataPath := "C:\Temp\";
     PathCombine := λ a b, a +:+ b |}.


Definition live : Service :=
  {| _browserView := Some {| viewId := 1 |};
     _path := "C:\Temp\Browser-2";
     _disposed := false |}.

Definition never_initialized : Service :=
  {| _browserView := None; _path := ""; _disposed := false |}.

(** Nothing throws, except the first two attempts at deleting. *)
Definition third_time_lucky : Outside :=
  {| IsDisposed := λ _, false;
     teardownThrows := λ _, None;
     deleteThrows := λ i, if (i <? 2)%nat then Some (Thrown "IOException") else None |}.

(** The browser refuses to be disposed. *)
Definition stubborn : Outside :=
  {| IsDisposed := λ _, false;
     teardownThrows := λ call,
       match call with
       | DisposeBrowser => Some (Thrown "InvalidOperationException")
       | _ => None
       end;
     deleteThrows := λ _, None |}.

(** A remote that is down. *)
Definition down : Trello.Remote :=
  {| Trello.tokenEndpoint := λ _ _, Rejected (Trello.TransportError 503 "unavailable");
     Trello.boardsEndpoint := λ _ _, Rejected (Trello.TransportError 503 "unavailable");
     Trello.listsEndpoint := λ _ _, Rejected (Trello.TransportError 503 "unavailable");
     Trello.cardsEndpoint := λ _ _, Rejected (Trello.TransportError 503 "unavailable") |}.

End BrowserSamples.

(** * Properties *)

(** ** The helpers *)

Section IterablesFacts.
Context {A : Type}.
Implicit Types (us : list A) (p : A → bool).

Lemma find_first_match p us :
  Spec.first_match (λ u, p u = true) us (Iterables.find us p).
Proof.
  induction us as [|u us IH]; simpl.
  - constructor.
  - destruct (p u) eqn:Hp.
    + exists [], us. by repeat split.
    + destruct (Iterables.find us p) as [v|]; simpl in *.
      * destruct IH as (before & after & -> & Hv & Hbefore).
        exists (u :: before), after. repeat split; [done|].
        constructor; [congruence | done].
      * constructor; [congruence | done].
Qed.

Lemma first_match_iff (P Q : A → Prop) us r :
  (∀ u, P u ↔ Q u) → Spec.first_match P us r → Spec.first_match Q us r.
Proof.
  intros HPQ. destruct r as [u|]; simpl.
  - intros (before & after & -> & Hu & Hb). exists before, after.
    repeat split; [by apply HPQ|].
    eapply Forall_impl; [done|]. intros v Hv HQ. by apply Hv, HPQ.
  - intros Hb. eapply Forall_impl; [done|].
    intros v Hv HQ. by apply Hv, HPQ.
Qed.

(** [first_match] determines the answer. *)
Lemma first_match_unique (P : A → Prop) us r1 r2 :
  Spec.first_match P us r1 → Spec.first_match P us r2 → r1 = r2.
Proof.
  revert r1 r2. induction us as [|u us IH]; intros r1 r2.
  - destruct r1 as [u1|], r2 as [u2|]; simpl; try done.
    + intros (b & a & E & _). by destruct b.
    + intros (b & a & E & _). by destruct b.
    + intros _ (b & a & E & _). by destruct b.
  - assert (Hshift : ∀ r, Spec.first_match P (u :: us) r →
      (P u ∧ r = Some u) ∨ (¬ P u ∧ Spec.first_match P us r)).
    { intros [v|]; simpl.
      - intros ([|w before] & after & E & Hv & Hb); simplify_eq/=.
        + by left.
        + right. apply Forall_cons in Hb as [Hw Hb]. split; [done|].
          by exists before, after.
      - intros Hb. apply Forall_cons in Hb as [Hw Hb]. by right. }
    intros H1 H2.
    destruct (Hshift _ H1) as [[Hu ->]|[Hu H1']],
             (Hshift _ H2) as [[Hu' ->]|[Hu' H2']]; try done.
    by apply IH.
Qed.

Lemma filter_stdpp p us (P : A → Prop) `{∀ u, Decision (P u)} :
  (∀ u, p u = true ↔ P u) →
  Iterables.filter us p = filter P us.
Proof.
  intros Hp. induction us as [|u us IH]; simpl; [done|].
  rewrite filter_cons. destruct (p u) eqn:E.
  - rewrite decide_True by by apply Hp. by rewrite IH.
  - rewrite decide_False; [done|]. rewrite <-Hp. congruence.
Qed.
End IterablesFacts.

Lemma includes_elem_of (xs : list string) (x : string) :
  JS.includes xs x = true ↔ x ∈ xs.
Proof.
  unfold JS.includes, JS.strict_eq. rewrite existsb_exists. split.
  - intros (y & Hy & E). apply bool_decide_eq_true in E as ->.
    by apply list_elem_of_In.
  - intros Hx. exists x. split; [by apply list_elem_of_In|].
    by apply bool_decide_eq_true.
Qed.

(** ** Case variation of ASCII text *)

Section AsciiCase.
Import JS Spec.

Lemma all_ascii_complete c : In c all_ascii.
Proof.
  unfold all_ascii. rewrite <-(ascii_nat_embedding c).
  apply in_map, in_seq. pose proof (nat_ascii_bounded c). lia.
Qed.

Lemma same_letter_agrees_everywhere :
  forallb (λ c, forallb (same_letter_agrees c) all_ascii) all_ascii = true.
Proof. vm_compute. reflexivity. Qed.

Lemma upper_ascii_same_letter c d :
  upper_ascii c = upper_ascii d ↔ same_letter c d.
Proof.
  pose proof same_letter_agrees_everywhere as Hall.
  rewrite forallb_forall in Hall. specialize (Hall c (all_ascii_complete c)).
  rewrite forallb_forall in Hall. specialize (Hall d (all_ascii_complete d)).
  unfold same_letter_agrees in Hall. apply Bool.eqb_prop in Hall.
  unfold same_letter. rewrite <-!Ascii.eqb_eq, Hall, !orb_true_iff.
  tauto.
Qed.

(** Under ASCII upper-casing, "equal up to case variation" is: of the same
    length and, position by position, the same letter in either case. *)
Lemma ascii_equal_ignoring_case a b :
  equal_ignoring_case (H := ascii_locale) a b ↔ case_variant a b.
Proof.
  unfold equal_ignoring_case, toLocaleUpperCase, ascii_locale.
  revert b. induction a as [|c a IH]; intros [|d b]; simpl.
  - split; [constructor|done].
  - split; [done|inversion 1].
  - split; [done|inversion 1].
  - split.
    + intros [= Hc Hs]. constructor; [by apply upper_ascii_same_letter|].
      by apply IH.
    + inversion 1; subst. f_equal; [by apply upper_ascii_same_letter|].
      by apply IH.
Qed.

End AsciiCase.

(** ** Upper-casing and letter case *)

Section AsciiFolding.
Import JS Spec Casing.

Lemma folding_agrees_everywhere :
  forallb (λ c, forallb (folding_agrees c) all_ascii) all_ascii = true.
Proof. vm_compute. reflexivity. Qed.

Lemma upper_ascii_same_letter_either_case c d :
  upper_ascii c = upper_ascii d ↔ same_letter_either_case c d = true.
Proof.
  pose proof folding_agrees_everywhere as Hall.
  rewrite forallb_forall in Hall. specialize (Hall c (all_ascii_complete c)).
  rewrite forallb_forall in Hall. specialize (Hall d (all_ascii_complete d)).
  unfold folding_agrees in Hall. apply Bool.eqb_prop in Hall.
  by rewrite <-Ascii.eqb_eq, Hall.
Qed.

Lemma upper_string_equal_up_to_case s t :
  upper_string s = upper_string t ↔ equal_up_to_case s t = true.
Proof.
  revert t. induction s as [|c s IH]; intros [|d t]; simpl; try done.
  rewrite andb_true_iff, <-upper_ascii_same_letter_either_case, <-IH.
  split; [by intros [= ? ?]|by intros [-> ->]].
Qed.

Lemma first_match_iff_on {A} (P Q : A → Prop) (us : list A) r :
  (∀ u, u ∈ us → (P u ↔ Q u)) →
  first_match P us r → first_match Q us r.
Proof.
  intros HPQ. destruct r as [u|]; simpl.
  - intros (before & after & -> & Hu & Hb). exists before, after.
    split; [done|]. split.
    + apply HPQ; [|done]. apply elem_of_app. right. apply list_elem_of_here.
    + apply Forall_forall. intros v Hv HQ.
      rewrite Forall_forall in Hb. apply (Hb v Hv), HPQ; [|done].
      apply elem_of_app. by left.
  - intros Hb. apply Forall_forall. intros v Hv HQ.
    rewrite Forall_forall in Hb. by apply (Hb v Hv), HPQ.
Qed.

End AsciiFolding.

(** ** Lookups of [UserCollection] over a populated cache *)

Section UserLookups.
Import JS Collection Users Spec.
Context `{Locale}.
Implicit Types (us : list User) (q : string) (b : bool) (o : option Options).

Lemma getByEmail_resume us q o :
  resume us (getByEmail q o) =
  Iterables.find us (λ u,
    strict_eq (fold (effective o) (User.email u)) (fold (effective o) q)).
Proof. unfold getByEmail, effective, fold. simpl. by destruct (truthy _). Qed.

Lemma getByName_resume us q o :
  resume us (getByName q o) =
  Iterables.find us (λ u,
    strict_eq (fold (effective o) (User.name u)) (fold (effective o) q)).
Proof. unfold getByName, effective, fold. simpl. by destruct (truthy _). Qed.

Lemma getByEmails_resume us (emails : list string) o :
  resume us (getByEmails emails o) =
  Iterables.filter us (λ u,
    includes (fold (effective o) <$> emails)
             (fold (effective o) (User.email u))).
Proof.
  unfold getByEmails, effective, fold. simpl.
  destruct (truthy _); [done|]. by rewrite list_fmap_id.
Qed.

Lemma getByEmail_first_match us q o :
  first_match (λ u, fold (effective o) (User.email u) = fold (effective o) q)
    us (resume us (getByEmail q o)).
Proof.
  rewrite getByEmail_resume.
  eapply first_match_iff; [|apply find_first_match].
  intros u. unfold strict_eq. apply bool_decide_eq_true.
Qed.

Lemma getByName_first_match us q o :
  first_match (λ u, fold (effective o) (User.name u) = fold (effective o) q)
    us (resume us (getByName q o)).
Proof.
  rewrite getByName_resume.
  eapply first_match_iff; [|apply find_first_match].
  intros u. unfold strict_eq. apply bool_decide_eq_true.
Qed.

Lemma getByEmails_filter us (emails : list string) o :
  resume us (getByEmails emails o) =
  filter (λ u, fold (effective o) (User.email u) ∈ fold (effective o) <$> emails)
    us.
Proof.
  rewrite getByEmails_resume. apply filter_stdpp.
  intros u. apply includes_elem_of.
Qed.

(** A call on a populated collection is answered at once, from the cache,
    and leaves the collection as it is. *)
Lemma call_cached {TEntity} (mapper : TEntity → User)
    (s : State User Answer) us (c : Caller) (m : Async User Answer) :
  cache s = Some us →
  step (Error := ApiError) mapper s (Call c m) = (s, [(c, Fulfilled (resume us m))]).
Proof. intros Hc. destruct m; simpl; [done|]. by rewrite Hc. Qed.

Lemma resume_asUser us (m : Async User (option User)) :
  resume us (asUser m) = AUser (resume us m).
Proof. unfold asUser. induction m; simpl; auto. Qed.

Lemma resume_asUsers us (m : Async User (list User)) :
  resume us (asUsers m) = AUsers (resume us m).
Proof. unfold asUsers. induction m; simpl; auto. Qed.

End UserLookups.

Section UserLookupClaims.
Import JS Collection Users Spec.
Context `{Locale}.
Implicit Types (us : list User) (q : string) (s : State User Answer).

(** C5, as it holds. On a populated collection, [getByEmail] and
    [getByName] called with [ignoreCase: true] answer with the first cached
    user whose email (name) has the same [toLocaleUpperCase] as the query
    under the locale of the host, and with nothing when there is no such
    user; the collection is left as it is. On ASCII text, under a locale
    that upper-cases ASCII text in the usual way (any but the Turkic ones),
    that user is the first whose email (name) differs from the query at most
    in the case of its letters. *)
Theorem lookup_ignoring_case (this : UserCollection) s us (c : Caller) q :
  cache s = Some us →
  (∃ r,
    step (Error := ApiError) (entityMapper this) s
      (Call c (asUser (getByEmail q (Some {| ignoreCase := Some true |}))))
    = (s, [(c, Fulfilled (AUser r))])
    ∧ first_match (λ u, equal_ignoring_case (User.email u) q) us r)
  ∧ (∃ r,
    step (Error := ApiError) (entityMapper this) s
      (Call c (asUser (getByName q (Some {| ignoreCase := Some true |}))))
    = (s, [(c, Fulfilled (AUser r))])
    ∧ first_match (λ u, equal_ignoring_case (User.name u) q) us r)
  ∧ ((∀ t, Casing.is_ascii t = true → toLocaleUpperCase t = upper_string t) →
     Casing.is_ascii q = true →
     Forall (λ u, Casing.is_ascii (User.email u) = true
                  ∧ Casing.is_ascii (User.name u) = true) us →
     (∃ r,
       step (Error := ApiError) (entityMapper this) s
         (Call c (asUser (getByEmail q (Some {| ignoreCase := Some true |}))))
       = (s, [(c, Fulfilled (AUser r))])
       ∧ first_match
           (λ u, Casing.equal_up_to_case (User.email u) q = true) us r)
     ∧ (∃ r,
       step (Error := ApiError) (entityMapper this) s
         (Call c (asUser (getByName q (Some {| ignoreCase := Some true |}))))
       = (s, [(c, Fulfilled (AUser r))])
       ∧ first_match
           (λ u, Casing.equal_up_to_case (User.name u) q = true) us r)).
Proof.
  intros Hc.
  assert (Hemail := getByEmail_first_match us q
    (Some {| ignoreCase := Some true |})).
  assert (Hname := getByName_first_match us q
    (Some {| ignoreCase := Some true |})).
  assert (Hcall : ∀ m : Async User (option User),
    step (Error := ApiError) (entityMapper this) s (Call c (asUser m))
    = (s, [(c, Fulfilled (AUser (resume us m)))])).
  { intros m. rewrite (call_cached _ _ us) by done. by rewrite resume_asUser. }
  split; [by eexists|]. split; [by eexists|].
  intros Hlocale Hq Hus. rewrite Forall_forall in Hus.
  split; (eexists; split; [apply Hcall|]).
  - eapply first_match_iff_on; [|exact Hemail].
    intros u Hu. destruct (Hus u Hu) as [Hascii _]. simpl. unfold fold.
    rewrite (Hlocale _ Hascii), (Hlocale _ Hq).
    apply upper_string_equal_up_to_case.
  - eapply first_match_iff_on; [|exact Hname].
    intros u Hu. destruct (Hus u Hu) as [_ Hascii]. simpl. unfold fold.
    rewrite (Hlocale _ Hascii), (Hlocale _ Hq).
    apply upper_string_equal_up_to_case.
Qed.

(** C6. On a populated collection, [getByEmail] (and [getByName]) called
    with [ignoreCase: false] answers with the first cached user whose email
    (name) is exactly the query, character case included, and with nothing
    when there is no such user. *)
Theorem lookup_exact_case (this : UserCollection) s us (c : Caller) q :
  cache s = Some us →
  (∃ r,
    step (Error := ApiError) (entityMapper this) s
      (Call c (asUser (getByEmail q (Some {| ignoreCase := Some false |}))))
    = (s, [(c, Fulfilled (AUser r))])
    ∧ first_match (λ u, User.email u = q) us r
    ∧ ∀ u, r = Some u → User.email u = q)
  ∧ (∃ r,
    step (Error := ApiError) (entityMapper this) s
      (Call c (asUser (getByName q (Some {| ignoreCase := Some false |}))))
    = (s, [(c, Fulfilled (AUser r))])
    ∧ first_match (λ u, User.name u = q) us r
    ∧ ∀ u, r = Some u → User.name u = q).
Proof.
  intros Hc.
  assert (Hsome : ∀ (P : User → Prop) r,
    first_match P us r → ∀ u, r = Some u → P u).
  { intros P r Hr u ->. by destruct Hr as (? & ? & _ & Hu & _). }
  split; eexists; (split;
    [rewrite (call_cached _ _ us) by done; by rewrite resume_asUser|]).
  - pose proof (getByEmail_first_match us q
      (Some {| ignoreCase := Some false |})) as Hm.
    split; [exact Hm | exact (Hsome _ _ Hm)].
  - pose proof (getByName_first_match us q
      (Some {| ignoreCase := Some false |})) as Hm.
    split; [exact Hm | exact (Hsome _ _ Hm)].
Qed.

(** C7. On a populated collection, [getByEmails] answers with exactly the
    cached users whose email, folded by the chosen rule, is among the folded
    candidates, in the order of the cache. *)
Theorem lookup_all_by_emails (this : UserCollection) s us (c : Caller)
    (emails : list string) (b : bool) :
  cache s = Some us →
  ∃ l,
    step (Error := ApiError) (entityMapper this) s
      (Call c (asUsers (getByEmails emails (Some {| ignoreCase := Some b |}))))
    = (s, [(c, Fulfilled (AUsers l))])
    ∧ l = filter (λ u, fold b (User.email u) ∈ fold b <$> emails) us
    ∧ l `sublist_of` us
    ∧ ∀ u, u ∈ l ↔
        u ∈ us ∧ ∃ e, e ∈ emails ∧ fold b e = fold b (User.email u).
Proof.
  intros Hc. eexists. split.
  { rewrite (call_cached _ _ us) by done. by rewrite resume_asUsers. }
  pose proof (getByEmails_filter us emails
    (Some {| ignoreCase := Some b |})) as Hf.
  replace (effective (Some {| ignoreCase := Some b |})) with b in Hf
    by by destruct b.
  rewrite Hf. split; [done|]. split; [apply sublist_filter|].
  intros u. rewrite list_elem_of_filter, list_elem_of_fmap. split.
  - intros [(e & He & Hin) Hu]. eauto.
  - intros [Hu (e & Hin & He)]. eauto.
Qed.

(** C9. With the [options] argument left out, the three lookups fold case
    (the default [{ ignoreCase: true }] applies); with an explicit options
    object that has no [ignoreCase], they compare exactly; and the two do
    differ, as on the sample directory under ASCII upper-casing. *)
Theorem omitted_options_fold_case_empty_options_do_not us q
    (emails : list string) :
  (first_match (λ u, equal_ignoring_case (User.email u) q) us
     (resume us (getByEmail q None))
   ∧ first_match (λ u, User.email u = q) us
     (resume us (getByEmail q (Some {| ignoreCase := None |}))))
  ∧ (resume us (getByEmails emails None)
     = filter (λ u, toLocaleUpperCase (User.email u)
                      ∈ toLocaleUpperCase <$> emails) us
   ∧ resume us (getByEmails emails (Some {| ignoreCase := None |}))
     = filter (λ u, User.email u ∈ emails) us)
  ∧ (first_match (λ u, equal_ignoring_case (User.name u) q) us
     (resume us (getByName q None))
   ∧ first_match (λ u, User.name u = q) us
     (resume us (getByName q (Some {| ignoreCase := None |}))))
  ∧ resume Samples.users (getByEmail (H := ascii_locale) "a@b.COM" None)
    ≠ resume Samples.users
        (getByEmail (H := ascii_locale) "a@b.COM" (Some {| ignoreCase := None |})).
Proof.
  repeat split; [..|by vm_compute].
  - apply (getByEmail_first_match us q None).
  - apply (getByEmail_first_match us q (Some {| ignoreCase := None |})).
  - apply (getByEmails_filter us emails None).
  - rewrite (getByEmails_filter us emails (Some {| ignoreCase := None |})).
    simpl. by rewrite list_fmap_id.
  - apply (getByName_first_match us q None).
  - apply (getByName_first_match us q (Some {| ignoreCase := None |})).
Qed.

End UserLookupClaims.

(** ** The lazy cache of a collection *)

Section CollectionFacts.
Import Collection.
Context {TItem TEntity Error A : Type}.
Variable entityMapper : TEntity → TItem.

Local Abbreviation State := (State TItem A).
Local Abbreviation Event := (Event TItem TEntity Error A).
Local Abbreviation step := (step (Error := Error) entityMapper).
Local Abbreviation run := (run (Error := Error) entityMapper).
Implicit Types (s : State) (ev : Event) (tr : list Event).

Lemma run_cons s ev tr :
  run s (ev :: tr) =
  ((run (step s ev).1 tr).1, (step s ev).2 ++ (run (step s ev).1 tr).2).
Proof. simpl. destruct (step s ev), (Collection.run _ _ _). done. Qed.

Lemma run_app s tr1 tr2 :
  run s (tr1 ++ tr2) =
  ((run (run s tr1).1 tr2).1, (run s tr1).2 ++ (run (run s tr1).1 tr2).2).
Proof.
  revert s. induction tr1 as [|ev tr1 IH]; intros s.
  - simpl. by destruct (Collection.run _ _ _).
  - change ((ev :: tr1) ++ tr2) with (ev :: (tr1 ++ tr2)).
    rewrite !run_cons, IH. simpl. by rewrite app_assoc.
Qed.

(** *** Counting fetches *)

Lemma step_armed s ev :
  quiet ev = true → armed s = true →
  armed (step s ev).1 = true ∧ fetchCalls (step s ev).1 = fetchCalls s.
Proof.
  unfold armed. destruct s as [ca fl n], ev as [c [a|k]|raws|e|]; simpl;
    try done; destruct ca, fl; simpl; done.
Qed.

Lemma step_unarmed s ev :
  quiet ev = true → armed s = false →
  if is_lookup ev
  then armed (step s ev).1 = true ∧ fetchCalls (step s ev).1 = S (fetchCalls s)
  else (step s ev).1 = s.
Proof.
  unfold armed. destruct s as [ca fl n], ev as [c [a|k]|raws|e|]; simpl;
    try done; destruct ca, fl; simpl; done.
Qed.

Lemma run_armed s tr :
  forallb quiet tr = true → armed s = true →
  fetchCalls (run s tr).1 = fetchCalls s.
Proof.
  revert s. induction tr as [|ev tr IH]; intros s Hq Ha; [done|].
  apply andb_prop in Hq as [Hev Hq]. rewrite run_cons. simpl.
  destruct (step_armed s ev Hev Ha) as [Ha' <-]. by apply IH.
Qed.

Lemma run_unarmed s tr :
  forallb quiet tr = true → armed s = false →
  fetchCalls (run s tr).1 =
  fetchCalls s + (if existsb is_lookup tr then 1 else 0).
Proof.
  revert s. induction tr as [|ev tr IH]; intros s Hq Ha.
  - simpl. lia.
  - apply andb_prop in Hq as [Hev Hq]. rewrite run_cons. simpl.
    pose proof (step_unarmed s ev Hev Ha) as Hstep.
    destruct (is_lookup ev); simpl.
    + destruct Hstep as [Ha' Hn]. rewrite run_armed by done. lia.
    + rewrite Hstep. by apply IH.
Qed.

(** *** One result for all *)

Lemma served_weaken us ws ws' tr tr' out :
  (∀ x, In x tr → In x tr') → (∀ x, In x ws → In x ws') →
  served us ws tr out → served us ws' tr' out.
Proof.
  intros Htr Hws. unfold served. intros Hout.
  eapply Forall_impl; [exact Hout|].
  intros co (m & Hm & Ho). exists m. split; [|done].
  destruct Hm as [Hin|(k & Hk & Hin)]; [left|right]; eauto.
Qed.

Lemma served_app us ws tr out1 out2 :
  served us ws tr out1 → served us ws tr out2 → served us ws tr (out1 ++ out2).
Proof. unfold served. intros. by apply Forall_app. Qed.

Lemma run_served_cached s us tr :
  forallb quiet tr = true → cache s = Some us → inflight s = None →
  served us [] tr (run s tr).2.
Proof.
  revert s. induction tr as [|ev tr IH]; intros s Hq Hc Hf.
  - constructor.
  - apply andb_prop in Hq as [Hev Hq]. rewrite run_cons. simpl.
    assert ((step s ev).1 = s ∧ served us [] (ev :: tr) (step s ev).2)
      as [Hs Hout].
    { destruct ev as [c m|raws|e|]; simpl in *; try done.
      - destruct m as [a|k]; simpl; rewrite ?Hc; simpl; (split; [done|]);
          (constructor; [|constructor]); eexists; (split; [left; by left|done]).
      - unfold resolved. rewrite Hf. split; [done|constructor]. }
    apply served_app; [done|]. rewrite Hs.
    eapply served_weaken; [| |by apply IH]; [by right|done].
Qed.

Lemma run_served_waiting s ws tr :
  forallb quiet tr = true → cache s = None → inflight s = Some ws →
  ∃ us, served us ws tr (run s tr).2.
Proof.
  revert s ws. induction tr as [|ev tr IH]; intros s ws Hq Hc Hf.
  - exists []. constructor.
  - apply andb_prop in Hq as [Hev Hq]. rewrite run_cons.
    destruct ev as [c m|raws|e|]; simpl in *; try done.
    + destruct m as [a|k]; simpl; rewrite ?Hc, ?Hf; simpl.
      * destruct (IH s ws Hq Hc Hf) as [us Hus]. exists us.
        constructor.
        { exists (Ret a). split; [left; by left|done]. }
        eapply served_weaken; [| |done]; [by right|done].
      * edestruct (IH {| cache := None; inflight := Some (ws ++ [(c, k)]);
                        fetchCalls := fetchCalls s |}) as [us Hus]; [done..|].
        exists us. unfold served in *. eapply Forall_impl; [exact Hus|].
        intros co (m & [Hin|(k' & -> & Hin)] & Ho).
        { exists m. split; [left; by right|done]. }
        apply in_app_or in Hin as [Hin|[Hin|[]]].
        { exists (AwaitItems k'). split; [right; eauto|done]. }
        destruct co as [c' o]. simplify_eq/=.
        exists (AwaitItems k'). split; [left; by left|done].
    + unfold resolved. rewrite Hf. simpl.
      exists (map entityMapper raws). apply served_app.
      * unfold served. apply Forall_map, Forall_forall.
        intros [c k] Hin. simpl. exists (AwaitItems k).
        split; [right; exists k; split; [done|]|done].
        by apply list_elem_of_In.
      * eapply served_weaken; [| |by apply run_served_cached];
          [by right|by intros ? []].
Qed.

Lemma run_served_empty tr :
  forallb quiet tr = true →
  ∃ us, served us [] tr (run empty tr).2.
Proof.
  induction tr as [|ev tr IH]; intros Hq.
  - exists []. constructor.
  - apply andb_prop in Hq as [Hev Hq]. rewrite run_cons.
    destruct ev as [c m|raws|e|]; simpl in *; try done.
    + destruct m as [a|k]; simpl.
      * destruct (IH Hq) as [us Hus]. exists us. constructor.
        { exists (Ret a). split; [left; by left|done]. }
        eapply served_weaken; [| |done]; [by right|done].
      * edestruct (run_served_waiting
          {| cache := None; inflight := Some [(c, k)]; fetchCalls := 1 |})
          as [us Hus]; [done..|].
        exists us. unfold served in *. eapply Forall_impl; [exact Hus|].
        intros co (m & [Hin|(k' & -> & [Hin|[]])] & Ho).
        { exists m. split; [left; by right|done]. }
        destruct co as [c' o]. simplify_eq/=.
        exists (AwaitItems k'). split; [left; by left|done].
    + destruct (IH Hq) as [us Hus]. exists us.
      eapply served_weaken; [| |done]; [by right|done].
Qed.

(** *** The cache holds one whole fetch *)

Lemma step_cache_whole s ev us :
  cache (step s ev).1 = Some us →
  cache s = Some us ∨ ∃ raws, ev = FetchResolved raws ∧ us = map entityMapper raws.
Proof.
  destruct ev as [c m|raws|e|]; simpl.
  - destruct m as [a|k]; simpl; [by left|].
    destruct (cache s) eqn:Hc; simpl; [rewrite Hc; by left|].
    by destruct (inflight s).
  - unfold resolved. destruct (inflight s); simpl; [|by left].
    intros [= <-]. right. eauto.
  - unfold rejected. destruct (inflight s); simpl; by left.
  - done.
Qed.

Lemma run_cache_whole s tr us :
  cache (run s tr).1 = Some us →
  cache s = Some us ∨ ∃ raws, In (FetchResolved raws) tr ∧ us = map entityMapper raws.
Proof.
  revert s. induction tr as [|ev tr IH]; intros s; [by left|].
  rewrite run_cons. simpl. intros Hc.
  destruct (IH _ Hc) as [Hc'|(raws & Hin & ->)].
  - destruct (step_cache_whole _ _ _ Hc') as [?|(raws & -> & ->)]; [by left|].
    right. exists raws. split; [by left|done].
  - right. exists raws. split; [by right|done].
Qed.

End CollectionFacts.

Section CollectionClaims.
Import Collection.
Context {TItem TEntity Error A : Type}.
Variable entityMapper : TEntity → TItem.

Local Abbreviation State := (State TItem A).
Local Abbreviation Event := (Event TItem TEntity Error A).
Local Abbreviation step := (step (Error := Error) entityMapper).
Local Abbreviation run := (run (Error := Error) entityMapper).
Implicit Types (s : State) (ev : Event) (tr : list Event).

(** C1, as it holds. Over the life of a collection in which nothing is
    invalidated and no fetch fails, [fetch()] is called exactly once if any
    lookup was made (and not at all otherwise), and every call is answered
    from one and the same sequence of items; in particular two lookups made
    before the fetch resolves wait for that one fetch and are both answered
    from its result. *)
Theorem one_fetch_while_nothing_fails tr :
  forallb quiet tr = true →
  fetchCalls (run empty tr).1 = (if existsb is_lookup tr then 1 else 0)
  ∧ (∃ us, served us [] tr (run empty tr).2)
  ∧ ∀ c1 c2 (k1 k2 : list TItem → Async TItem A) raws,
      let us := map entityMapper raws in
      run empty [Call c1 (AwaitItems k1); Call c2 (AwaitItems k2);
                 FetchResolved raws]
      = ({| cache := Some us; inflight := None; fetchCalls := 1 |},
         [(c1, Fulfilled (resume us (k1 us)));
          (c2, Fulfilled (resume us (k2 us)))]).
Proof.
  intros Hq. split; [|split].
  - by rewrite run_unarmed.
  - by apply run_served_empty.
  - done.
Qed.

(** C2. When the fetch in flight fails, every caller waiting on it is
    rejected with that very error, the cache stays unset and nothing is in
    flight any more, so that the next lookup calls [fetch()] again; and
    whenever a cache is set, it is the whole mapped result of one fetch. *)
Theorem failed_fetch_reaches_callers_and_leaves_cache_unset s ws (e : Error) :
  cache s = None → inflight s = Some ws →
  (step s (FetchRejected e)).2 = map (λ w, (w.1, Rejected e)) ws
  ∧ (step s (FetchRejected e)).1
    = {| cache := None; inflight := None; fetchCalls := fetchCalls s |}
  ∧ (∀ c (k : list TItem → Async TItem A),
      step (step s (FetchRejected e)).1 (Call c (AwaitItems k))
      = ({| cache := None; inflight := Some [(c, k)];
            fetchCalls := S (fetchCalls s) |}, []))
  ∧ ∀ tr us,
      cache (run empty tr).1 = Some us →
      ∃ raws, In (FetchResolved raws) tr ∧ us = map entityMapper raws.
Proof.
  intros Hc Hf. simpl. unfold rejected. rewrite Hf, Hc. simpl.
  repeat split.
  intros tr us Hus. by destruct (run_cache_whole entityMapper _ _ _ Hus).
Qed.

End CollectionClaims.

(** ** The Trello provider *)

Section TrelloFacts.
Import JS Trello.
Variable remote : Remote.
Implicit Types (w : World) (p : TrelloProvider).

Lemma lists_unfold request w :
  lists remote request w =
  match listsEndpoint remote (wire w) (lists_request (this w) request) with
  | Fulfilled resp =>
      (Fulfilled {| lists_of :=
         List.filter (λ l, negb (truthy (closed l))) (body resp) |},
       sent w (lists_request (this w) request))
  | Rejected e => (Rejected e, sent w (lists_request (this w) request))
  end.
Proof.
  unfold lists, mbind, M_bind, self, get, send, lists_request. simpl.
  by destruct (listsEndpoint remote _ _).
Qed.

Lemma boards_unfold request w :
  boards remote request w =
  match boardsEndpoint remote (wire w) (boards_request (this w)) with
  | Fulfilled resp =>
      (Fulfilled {| boards_of :=
         if truthy_string (organizationId request)
         then List.filter
                (λ b, bool_decide (idOrganization b = organizationId request))
                (body resp)
         else body resp |},
       sent w (boards_request (this w)))
  | Rejected e => (Rejected e, sent w (boards_request (this w)))
  end.
Proof.
  unfold boards, mbind, M_bind, self, get, send, boards_request. simpl.
  by destruct (boardsEndpoint remote _ _).
Qed.

Lemma createCard_unfold request w :
  createCard remote request w =
  match cardsEndpoint remote (wire w) (card_request (this w) request) with
  | Fulfilled resp => (Fulfilled (body resp), sent w (card_request (this w) request))
  | Rejected e => (Rejected e, sent w (card_request (this w) request))
  end.
Proof.
  unfold createCard, mbind, M_bind, self, post, send, card_request. simpl.
  by destruct (cardsEndpoint remote _ _).
Qed.

Lemma onConnected_unfold w :
  onConnected remote w =
  match tokenEndpoint remote (wire w) (whoami_request (this w)) with
  | Fulfilled resp =>
      (Fulfilled (),
       {| this := {| _trelloUserId := Some (idMember (body resp));
                     _providerInfo := _providerInfo (this w);
                     accessToken := accessToken (this w) |};
          wire := wire w ++ [whoami_request (this w)] |})
  | Rejected e => (Rejected e, sent w (whoami_request (this w)))
  end.
Proof.
  unfold onConnected, getMemberId, mbind, M_bind, self, get, send,
    whoami_request, set_trelloUserId. simpl.
  by destruct (tokenEndpoint remote _ _).
Qed.

(** Serving a request sends exactly the request of that operation and
    leaves the provider's fields alone. *)
Lemma serve_sent op w :
  serve remote op w = sent w (request_of (this w) op).
Proof.
  destruct op as [request|request|request]; simpl.
  - rewrite boards_unfold. by destruct (boardsEndpoint remote _ _).
  - rewrite lists_unfold. by destruct (listsEndpoint remote _ _).
  - rewrite createCard_unfold. by destruct (cardsEndpoint remote _ _).
Qed.

Lemma serve_all_sent ops w :
  serve_all remote ops w =
  {| this := this w; wire := wire w ++ map (request_of (this w)) ops |}.
Proof.
  unfold serve_all. revert w. induction ops as [|op ops IH]; intros w.
  - simpl. rewrite app_nil_r. by destruct w.
  - cbn [fold_left map]. rewrite IH, serve_sent. simpl.
    by rewrite <-app_assoc.
Qed.

Lemma request_of_not_whoami p op : is_whoami (request_of p op) = false.
Proof. by destruct op. Qed.

Lemma request_of_token p op : token_param (request_of p op) = accessToken p.
Proof. by destruct op. Qed.

Lemma whoami_request_is_whoami p : is_whoami (whoami_request p) = true.
Proof. reflexivity. Qed.

End TrelloFacts.

Section TrelloClaims.
Import JS Trello.
Variable remote : Remote.
Implicit Types (w : World) (p : TrelloProvider).

(** C3. Whatever the lists endpoint answers, no list that [lists] returns
    has its closed flag set: the result is the answer's body without its
    closed lists, in the body's order. *)
Theorem lists_leaves_out_closed (request : TrelloFetchListsRequest) w :
  (∀ r, (lists remote request w).1 = Fulfilled r →
        Forall (λ l, closed l ≠ Some true) (lists_of r))
  ∧ ∀ resp,
      listsEndpoint remote (wire w) (lists_request (this w) request)
        = Fulfilled resp →
      ∃ r, (lists remote request w).1 = Fulfilled r
        ∧ lists_of r `sublist_of` body resp
        ∧ ∀ l, l ∈ lists_of r ↔ l ∈ body resp ∧ closed l ≠ Some true.
Proof.
  assert (Hopen : ∀ l : TrelloList,
    negb (truthy (closed l)) = true ↔ closed l ≠ Some true).
  { intros l. destruct (closed l) as [[]|]; simpl; split; congruence. }
  rewrite lists_unfold. split.
  - intros r. destruct (listsEndpoint remote _ _) as [resp|e]; simpl; [|done].
    intros [= <-]. simpl. apply Forall_forall. intros l Hl.
    apply list_elem_of_In, filter_In in Hl as [_ Hl]. by apply Hopen.
  - intros resp ->. simpl. eexists. split; [done|]. simpl. split.
    + induction (body resp) as [|l ls IH]; simpl; [done|].
      destruct (negb _); by constructor.
    + intros l. rewrite !list_elem_of_In, filter_In. by rewrite Hopen.
Qed.

(** C4, as it holds. When the boards endpoint answers, [boards] returns,
    for a non-empty organization id, exactly the fetched boards whose
    [idOrganization] is that id, in the order fetched; with the filter left
    out, or empty, it returns all fetched boards. *)
Theorem boards_filters_by_organization (request : TrelloFetchBoardsRequest)
    w resp :
  boardsEndpoint remote (wire w) (boards_request (this w)) = Fulfilled resp →
  ∃ r, (boards remote request w).1 = Fulfilled r
    ∧ match organizationId request with
      | None => boards_of r = body resp
      | Some X =>
          (X ≠ "" →
             boards_of r = filter (λ b, idOrganization b = Some X) (body resp))
          ∧ (X = "" → boards_of r = body resp)
      end.
Proof.
  intros Hresp. rewrite boards_unfold, Hresp. simpl. eexists. split; [done|].
  simpl. destruct (organizationId request) as [[|c X]|]; simpl; [| |done].
  - split; [done|done].
  - split; [|done]. intros _.
    induction (body resp) as [|b bs IH]; simpl; [done|].
    rewrite filter_cons, IH.
    destruct (decide (idOrganization b = Some (String c X))) as [E|E].
    + by rewrite bool_decide_eq_true_2.
    + by rewrite bool_decide_eq_false_2.
Qed.

(** C8, as it holds. Connecting sends one "who am I" request, which already
    carries the access token, and stores the member id of the answer in
    [_trelloUserId] (nothing is stored when the call fails); the requests
    served afterwards send one request each, none of them a "who am I",
    all with the same access token, and leave every field of the provider,
    the stored member id included, as it was. *)
Theorem member_id_fetched_once_at_connection w (ops : list Operation) :
  let w1 := (onConnected remote w).2 in
  let w2 := serve_all remote ops w1 in
  (wire w1 = wire w ++ [whoami_request (this w)]
   ∧ is_whoami (whoami_request (this w)) = true
   ∧ token_param (whoami_request (this w)) = accessToken (this w))
  ∧ (∀ resp,
       tokenEndpoint remote (wire w) (whoami_request (this w)) = Fulfilled resp →
       this w1 = {| _trelloUserId := Some (idMember (body resp));
                    _providerInfo := _providerInfo (this w);
                    accessToken := accessToken (this w) |})
  ∧ (∀ e,
       tokenEndpoint remote (wire w) (whoami_request (this w)) = Rejected e →
       this w1 = this w)
  ∧ this w2 = this w1
  ∧ ∃ later,
      wire w2 = wire w1 ++ later
      ∧ length later = length ops
      ∧ Forall (λ rq, is_whoami rq = false
                      ∧ token_param rq = accessToken (this w)) later.
Proof.
  intros w1 w2. subst w2. rewrite serve_all_sent. subst w1.
  rewrite onConnected_unfold.
  destruct (tokenEndpoint remote _ _) as [resp|e] eqn:Hresp; simpl.
  - repeat split; try done.
    + by intros ? [= <-].
    + eexists. repeat split; [by rewrite length_map|].
      apply Forall_map, Forall_forall. intros op _. simpl.
      by rewrite request_of_not_whoami, request_of_token.
  - repeat split; try done.
    eexists. repeat split; [by rewrite length_map|].
    apply Forall_map, Forall_forall. intros op _. simpl.
    by rewrite request_of_not_whoami, request_of_token.
Qed.

End TrelloClaims.

(** ** The bridge *)

Section InteropClaims.
Import Interop.
Context {Host : Type}.

(** C10. [Handle] does not look at [origin]: whatever the origin, the
    outcome is the same, namely that the handler in [MessageHandler] (the one
    registered last with [AddWindowMessageEvent]) is run once on this instance
    and an event holding the message; with no handler registered, nothing
    happens. *)
Theorem Handle_ignores_origin (this : PostMessageInterop)
    (message origin1 origin2 : string) (st : Statics Host) (host : Host) :
  Handle this message origin1 st host = Handle this message origin2 st host
  ∧ (∀ handler, MessageHandler st = Some handler →
       Handle this message origin1 st host
       = handler this {| Message := message |} host)
  ∧ (∀ handler,
       Handle this message origin1 (AddWindowMessageEvent handler st) host
       = handler this {| Message := message |} host)
  ∧ (MessageHandler st = None → Handle this message origin1 st host = host).
Proof.
  unfold Handle. repeat split.
  - by intros handler ->.
  - by intros ->.
Qed.

End InteropClaims.

(** * The properties at work *)

Section Instances.
Import JS Collection Users Spec Samples.

Local Abbreviation step := (step (Error := ApiError) (entityMapper team)).
Local Abbreviation run := (run (Error := ApiError) (entityMapper team)).

(** Three lookups, two of them overlapping, one fetch. *)
Lemma one_fetch_while_nothing_fails_witness :
  forallb quiet overlapping = true
  ∧ fetchCalls (run empty overlapping).1 = 1.
Proof.
  split; [reflexivity|].
  exact (proj1 (one_fetch_while_nothing_fails
                  (entityMapper team) overlapping eq_refl)).
Defined.

Example overlapping_answers :
  (run empty overlapping).2 =
  [ (1, Fulfilled (AUser (Some (entityMapper team ann))));
    (2, Fulfilled (AUser (Some (entityMapper team bob))));
    (3, Fulfilled (AUsers [entityMapper team bob])) ].
Proof. vm_compute. reflexivity. Qed.

(** C1 as the specification words it, without the proviso: a lookup after a
    failed fetch fetches again, though nothing was invalidated. *)
Lemma lookup_after_failed_fetch_fetches_again :
  ¬ ∀ tr : list (Event User CSUser ApiError Answer),
      forallb (λ ev, negb (is_invalidate ev)) tr = true →
      existsb is_lookup tr = true →
      fetchCalls (run empty tr).1 = 1.
Proof.
  intros Hone. specialize (Hone retried eq_refl eq_refl).
  vm_compute in Hone. discriminate Hone.
Qed.

Example retried_fetches_twice : fetchCalls (run empty retried).1 = 2.
Proof. vm_compute. reflexivity. Qed.

(** Both waiting callers get the error of the failed fetch. *)
Lemma failed_fetch_reaches_callers_witness :
  (cache waiting = None ∧ is_Some (inflight waiting))
  ∧ (step waiting (FetchRejected (AuthError "401"))).2
    = [(1, Rejected (AuthError "401")); (2, Rejected (AuthError "401"))].
Proof.
  split; [split; [reflexivity | eexists; reflexivity]|].
  exact (proj1 (failed_fetch_reaches_callers_and_leaves_cache_unset
                  (entityMapper team) waiting _ (AuthError "401")
                  eq_refl eq_refl)).
Defined.

Lemma lookup_ignoring_case_witness :
  (cache populated = Some users
   ∧ (∀ t, Casing.is_ascii t = true →
           toLocaleUpperCase (Locale := ascii_locale) t = upper_string t)
   ∧ Casing.is_ascii "a@b.COM" = true
   ∧ Forall (λ u, Casing.is_ascii (User.email u) = true
                  ∧ Casing.is_ascii (User.name u) = true) users)
  ∧ Casing.equal_up_to_case "A@B.com" "a@b.COM" = true
  ∧ step populated
      (Call 7 (asUser (getByEmail (H := ascii_locale) "a@b.COM" fold_case)))
    = (populated, [(7, Fulfilled (AUser (Some (entityMapper team ann))))]).
Proof.
  assert (Hlocale : ∀ t, Casing.is_ascii t = true →
    toLocaleUpperCase (Locale := ascii_locale) t = upper_string t)
    by reflexivity.
  assert (Husers : Forall (λ u, Casing.is_ascii (User.email u) = true
                               ∧ Casing.is_ascii (User.name u) = true) users)
    by (repeat constructor).
  split; [by repeat split|]. split; [reflexivity|].
  destruct (lookup_ignoring_case (H := ascii_locale)
              team populated users 7 "a@b.COM" eq_refl)
    as (_ & _ & Hascii).
  destruct (Hascii Hlocale eq_refl Husers) as [(r & Hstep & Hfirst) _].
  transitivity (populated, [(7, @Fulfilled ApiError _ (AUser r))]);
    [exact Hstep|]. do 5 f_equal.
  apply (first_match_unique _ _ _ _ Hfirst).
  exists [], (map (entityMapper team) [bob; ann2]).
  split; [reflexivity|]. split; [reflexivity|constructor].
Defined.

(** C5 as the specification words it, on a host with a Turkic locale: the
    entity ["I@B.com"] and the query ["i@b.com"] differ only in the case of a
    letter, and the lookup that ignores case finds nothing. *)
Lemma turkic_host_misses_a_case_variant :
  ¬ ∀ (us : list User) (q : string) (u : User),
      u ∈ us →
      Casing.equal_up_to_case (User.email u) q = true →
      is_Some (resume us
        (getByEmail (H := Casing.turkic_locale) q
           (Some {| ignoreCase := Some true |}))).
Proof.
  intros Hall.
  specialize (Hall [entityMapper team Casing.irene] "i@b.com"
                (entityMapper team Casing.irene)
                (list_elem_of_here _ _) eq_refl).
  destruct Hall as [u Hu]. vm_compute in Hu. discriminate Hu.
Qed.

Example turkic_upper_case_of_i :
  toLocaleUpperCase (Locale := Casing.turkic_locale) "i@b.com"
  = Casing.capital_dotted_I +:+ "@B.COM"
  ∧ toLocaleUpperCase (Locale := Casing.turkic_locale) "I@B.com" = "I@B.COM".
Proof. vm_compute. split; reflexivity. Qed.

(** The example of the specification: the entity ["A@B.com"] answers the
    query ["a@b.COM"]; it comes before ["a@b.com"] in the cache. *)
Example getByEmail_folds_case :
  resume users (getByEmail (H := ascii_locale) "a@b.COM" fold_case)
  = Some (entityMapper team ann).
Proof. vm_compute. reflexivity. Qed.

Example getByName_folds_case :
  resume users (getByName (H := ascii_locale) "Bob" fold_case)
  = Some (entityMapper team bob).
Proof. vm_compute. reflexivity. Qed.

Lemma lookup_exact_case_witness :
  cache populated = Some users
  ∧ ∃ r,
      step populated (Call 7 (asUser (getByEmail (H := ascii_locale) "a@b.com" exact_case)))
      = (populated, [(7, Fulfilled (AUser r))])
      ∧ first_match (λ u, User.email u = "a@b.com") users r
      ∧ ∀ u, r = Some u → User.email u = "a@b.com".
Proof.
  split; [reflexivity|].
  exact (proj1 (lookup_exact_case (H := ascii_locale)
                  team populated users 7 "a@b.com" eq_refl)).
Defined.

Example getByEmail_exact_case :
  resume users (getByEmail (H := ascii_locale) "a@b.com" exact_case)
  = Some (entityMapper team ann2)
  ∧ resume users (getByEmail (H := ascii_locale) "a@b.COM" exact_case) = None.
Proof. vm_compute. split; reflexivity. Qed.

Lemma lookup_all_by_emails_witness :
  cache populated = Some users
  ∧ ∃ l,
      step populated
        (Call 7 (asUsers (getByEmails (H := ascii_locale)
                            ["BOB@c.org"; "a@B.com"] fold_case)))
      = (populated, [(7, Fulfilled (AUsers l))])
      ∧ l = filter (λ u, fold (H := ascii_locale) true (User.email u)
                           ∈ fold (H := ascii_locale) true
                               <$> ["BOB@c.org"; "a@B.com"]) users
      ∧ l `sublist_of` users
      ∧ ∀ u, u ∈ l ↔ u ∈ users ∧ ∃ e, e ∈ ["BOB@c.org"; "a@B.com"]
               ∧ fold (H := ascii_locale) true e
                 = fold (H := ascii_locale) true (User.email u).
Proof.
  split; [reflexivity|].
  exact (lookup_all_by_emails (H := ascii_locale)
           team populated users 7 ["BOB@c.org"; "a@B.com"] true eq_refl).
Defined.

Example getByEmails_keeps_cache_order :
  resume users (getByEmails (H := ascii_locale) ["BOB@c.org"; "a@B.com"] fold_case)
  = map (entityMapper team) [ann; bob; ann2]
  ∧ resume users (getByEmails (H := ascii_locale) ["BOB@c.org"; "a@b.com"] exact_case)
  = map (entityMapper team) [ann2].
Proof. vm_compute. split; reflexivity. Qed.

(** Leaving [options] out is not the same as passing [{}]. *)
Example omitted_and_empty_options_differ :
  resume users (getByEmail (H := ascii_locale) "a@b.COM" None)
  = Some (entityMapper team ann)
  ∧ resume users (getByEmail (H := ascii_locale) "a@b.COM" no_flag) = None.
Proof. vm_compute. split; reflexivity. Qed.

End Instances.

Section TrelloInstances.
Import JS Trello Samples.

Lemma lists_leaves_out_closed_witness :
  listsEndpoint trello (wire fresh)
    (lists_request (this fresh) {| boardId := "b1" |})
  = Fulfilled {| body := all_lists |}
  ∧ ∃ r, (lists trello {| boardId := "b1" |} fresh).1 = Fulfilled r
      ∧ lists_of r `sublist_of` all_lists
      ∧ ∀ l, l ∈ lists_of r ↔ l ∈ all_lists ∧ closed l ≠ Some true.
Proof.
  split; [reflexivity|].
  exact (proj2 (lists_leaves_out_closed trello {| boardId := "b1" |} fresh)
           {| body := all_lists |} eq_refl).
Defined.

Example lists_of_sample :
  (lists trello {| boardId := "b1" |} fresh).1
  = Fulfilled {| lists_of := [trello_list "l1" (Some false); trello_list "l3" None] |}.
Proof. vm_compute. reflexivity. Qed.

Lemma boards_filters_by_organization_witness :
  boardsEndpoint trello (wire fresh) (boards_request (this fresh))
  = Fulfilled {| body := all_boards |}
  ∧ ∃ r, (boards trello {| organizationId := Some "org-1" |} fresh).1 = Fulfilled r
      ∧ boards_of r = filter (λ b, idOrganization b = Some "org-1") all_boards.
Proof.
  split; [reflexivity|].
  destruct (boards_filters_by_organization trello
              {| organizationId := Some "org-1" |} fresh
              {| body := all_boards |} eq_refl) as (r & Hr & Hfilter & _).
  exists r. split; [exact Hr|]. apply Hfilter. discriminate.
Defined.

Example boards_of_sample :
  (boards trello {| organizationId := Some "org-1" |} fresh).1
  = Fulfilled {| boards_of := [board "b1" "org-1"; board "b3" "org-1"] |}
  ∧ (boards trello {| organizationId := None |} fresh).1
  = Fulfilled {| boards_of := all_boards |}.
Proof. vm_compute. split; reflexivity. Qed.

(** C4 as the specification words it, without the proviso: with the empty
    organization id, boards of other organizations are returned. *)
Lemma boards_empty_organization_is_no_filter :
  ¬ ∀ (remote : Remote) (X : string) (w : World) r,
      (boards remote {| organizationId := Some X |} w).1 = Fulfilled r →
      ∀ b, b ∈ boards_of r → idOrganization b = Some X.
Proof.
  intros Hall.
  specialize (Hall trello "" fresh _ eq_refl (board "b1" "org-1")).
  discriminate Hall. apply list_elem_of_here.
Qed.

Lemma member_id_fetched_once_at_connection_witness :
  tokenEndpoint trello (wire fresh) (whoami_request (this fresh))
  = Fulfilled {| body := {| idMember := "member-9" |} |}
  ∧ this (onConnected trello fresh).2
    = {| _trelloUserId := Some "member-9";
         _providerInfo := _providerInfo provider;
         accessToken := Some "tok-1" |}
  ∧ this (serve_all trello work (onConnected trello fresh).2)
    = this (onConnected trello fresh).2.
Proof.
  split; [reflexivity|].
  destruct (member_id_fetched_once_at_connection trello fresh work)
    as (_ & Hid & _ & Hframe & _).
  split; [exact (Hid _ eq_refl) | exact Hframe].
Defined.

Example wire_of_sample :
  map (λ rq, (is_whoami rq, path rq, token_param rq))
    (wire (serve_all trello work (onConnected trello fresh).2))
  = [ (true, "/token/tok-1", Some "tok-1");
      (false, "/members/member-9/boards", Some "tok-1");
      (false, "/boards/b1/lists", Some "tok-1");
      (false, "/cards", Some "tok-1");
      (false, "/members/member-9/boards", Some "tok-1") ].
Proof. vm_compute. reflexivity. Qed.

(** C8 as the specification words it: what the "who am I" call brings back
    is not the access token; the token is the one the provider had before
    the call. *)
Lemma whoami_answer_is_not_the_token :
  ¬ ∀ (remote : Remote) (w : World) resp,
      tokenEndpoint remote (wire w) (whoami_request (this w)) = Fulfilled resp →
      accessToken (this (onConnected remote w).2) = Some (idMember (body resp)).
Proof.
  intros Hall. specialize (Hall trello fresh _ eq_refl).
  vm_compute in Hall. discriminate Hall.
Qed.

End TrelloInstances.

Section InteropInstances.
Import Interop Samples.

Lemma Handle_ignores_origin_witness :
  Handle {| instance := 1 |} "{}" "https://a.example"
    {| MessageHandler := Some recorder |} []
  = [(1, "{}")]
  ∧ Handle {| instance := 1 |} "{}" "https://a.example"
      {| MessageHandler := None |} ([] : list (nat * string))
    = [].
Proof.
  split.
  - exact (proj1 (proj2 (Handle_ignores_origin {| instance := 1 |} "{}"
      "https://a.example" "*" {| MessageHandler := Some recorder |} []))
      recorder eq_refl).
  - exact (proj2 (proj2 (proj2 (Handle_ignores_origin {| instance := 1 |} "{}"
      "https://a.example" "*" {| MessageHandler := None |} []))) eq_refl).
Defined.

End InteropInstances.

(** * Further properties of the code *)

(** ** Lookups of [UserCollection] *)

Section UserLookupExtras.
Import JS Collection Users Spec.
Context `{Locale}.
Implicit Types (us : list User) (q : string) (o : option Options).

Lemma effective_true : effective (Some {| ignoreCase := Some true |}) = true.
Proof. reflexivity. Qed.

(** X1. A lookup that ignores case does not tell two spellings of the query
    apart: queries equal up to case get the same answer from [getByEmail] and
    [getByName], and candidate lists that are pairwise equal up to case get
    the same answer from [getByEmails]. *)
Theorem folded_lookup_ignores_query_spelling us q q'
    (emails emails' : list string) :
  equal_ignoring_case q q' →
  Forall2 equal_ignoring_case emails emails' →
  resume us (getByEmail q (Some {| ignoreCase := Some true |}))
  = resume us (getByEmail q' (Some {| ignoreCase := Some true |}))
  ∧ resume us (getByName q (Some {| ignoreCase := Some true |}))
    = resume us (getByName q' (Some {| ignoreCase := Some true |}))
  ∧ resume us (getByEmails emails (Some {| ignoreCase := Some true |}))
    = resume us (getByEmails emails' (Some {| ignoreCase := Some true |})).
Proof.
  unfold equal_ignoring_case. intros Hq Hemails.
  rewrite !getByEmail_resume, !getByName_resume, !getByEmails_resume.
  rewrite effective_true.
  assert (fold true <$> emails = fold true <$> emails') as ->.
  { induction Hemails as [|e e' es es' He _ IH]; [done|].
    rewrite !fmap_cons. f_equal; [exact He|exact IH]. }
  unfold fold. by rewrite Hq.
Qed.

(** X2. Whatever the options, [getByEmail(q)] answers with the first user
    that [getByEmails([q])] answers with, and with nothing exactly when the
    latter is empty. *)
Theorem getByEmail_is_head_of_getByEmails us q o :
  resume us (getByEmail q o) = head (resume us (getByEmails [q] o)).
Proof.
  rewrite getByEmail_resume, getByEmails_resume.
  induction us as [|u us IH]; simpl; [done|].
  rewrite orb_false_r. destruct (strict_eq _ _); [done|]. exact IH.
Qed.

Lemma filter_sublist_mono {A} (P Q : A → Prop)
    `{∀ x, Decision (P x)} `{∀ x, Decision (Q x)} (l : list A) :
  (∀ x, P x → Q x) → filter P l `sublist_of` filter Q l.
Proof.
  intros HPQ. induction l as [|x l IH]; [done|].
  rewrite !filter_cons. destruct (decide (P x)) as [HP|HP].
  - rewrite decide_True by auto. by constructor.
  - destruct (decide (Q x)); [by constructor|done].
Qed.

(** X3. [getByEmails] treats its candidates as a set: with more candidates
    the answer can only grow (the smaller answer is a sublist of the larger),
    and two candidate lists with the same elements, in whatever order and
    multiplicity, get the same answer. *)
Theorem getByEmails_candidates_are_a_set us (emails emails' : list string) o :
  (∀ e, e ∈ emails → e ∈ emails') →
  resume us (getByEmails emails o) `sublist_of` resume us (getByEmails emails' o)
  ∧ ((∀ e, e ∈ emails' → e ∈ emails) →
     resume us (getByEmails emails o) = resume us (getByEmails emails' o)).
Proof.
  intros Hsub. rewrite !getByEmails_filter.
  assert (Hmono : ∀ (es es' : list string), (∀ e, e ∈ es → e ∈ es') →
    ∀ u, fold (effective o) (User.email u) ∈ fold (effective o) <$> es →
         fold (effective o) (User.email u) ∈ fold (effective o) <$> es').
  { intros es es' Hes u. rewrite !list_elem_of_fmap.
    intros (e & He & Hin). eauto. }
  split.
  - apply filter_sublist_mono. by apply Hmono.
  - intros Hsup. apply list_filter_iff. intros u. split; by apply Hmono.
Qed.

(** X4. A case-sensitive hit is never lost by ignoring case: when the exact
    lookup finds a user, the lookup that ignores case finds one too, with an
    email equal to the query up to case (not necessarily the same user: the
    first such in the cache). *)
Theorem exact_hit_is_a_folded_hit us q (u : User) :
  resume us (getByEmail q (Some {| ignoreCase := Some false |})) = Some u →
  ∃ u', resume us (getByEmail q (Some {| ignoreCase := Some true |})) = Some u'
        ∧ equal_ignoring_case (User.email u') q.
Proof.
  intros Hexact.
  pose proof (getByEmail_first_match us q
    (Some {| ignoreCase := Some false |})) as Hm.
  rewrite Hexact in Hm. destruct Hm as (before & after & -> & Hu & _).
  simpl in Hu.
  pose proof (getByEmail_first_match (before ++ u :: after) q
    (Some {| ignoreCase := Some true |})) as Hf.
  destruct (resume _ (getByEmail q (Some {| ignoreCase := Some true |})))
    as [u'|].
  - exists u'. split; [done|]. by destruct Hf as (? & ? & _ & Hu' & _).
  - exfalso. simpl in Hf. apply Forall_app in Hf as [_ Hf].
    apply Forall_cons in Hf as [Hf _]. apply Hf. simpl. by rewrite Hu.
Qed.

(** X5. Over a fetched directory, a lookup by email finds the wrapper of the
    first raw record whose email matches: wrapping by [entityMapper] keeps
    the email and the name of the record and ties it to the session of the
    collection. *)
Theorem lookup_over_mapped_directory (this : UserCollection)
    (raws : list CSUser) q o :
  resume (map (entityMapper this) raws) (getByEmail q o)
  = entityMapper this <$>
      Iterables.find raws (λ e,
        strict_eq (fold (effective o) (email e)) (fold (effective o) q))
  ∧ ∀ e, User.email (entityMapper this e) = email e
         ∧ User.name (entityMapper this e) = username e
         ∧ session (entityMapper this e) = collection_session this.
Proof.
  split; [|done]. rewrite getByEmail_resume.
  induction raws as [|e raws IH]; simpl; [done|].
  unfold User.email at 1. simpl.
  destruct (strict_eq _ _); [done|]. apply IH.
Qed.

(** X6. With no candidate, or over an empty cache, the lookups find nothing,
    whatever the options. *)
Theorem lookups_on_nothing us q (emails : list string) o :
  resume us (getByEmails [] o) = []
  ∧ resume [] (getByEmails emails o) = []
  ∧ resume [] (getByEmail q o) = None
  ∧ resume [] (getByName q o) = None.
Proof.
  repeat split; [|by rewrite getByEmails_resume..].
  rewrite getByEmails_filter. simpl.
  induction us as [|u us IH]; [done|].
  rewrite filter_cons, decide_False; [done|]. by intros ?%elem_of_nil.
Qed.

End UserLookupExtras.

(** ** The Trello provider over its life *)

Section TrelloExtras.
Import JS Trello TrelloSession.
Variable remote : Remote.
Implicit Types (w : World) (p : TrelloProvider).

Lemma request_of_key p op : key_param (request_of p op) = apiKey p.
Proof. by destruct op. Qed.

(** One action sends one request, with the key and token of the provider,
    a "who am I" exactly when the action is a connection, and leaves the
    inherited fields alone. *)
Lemma act_sends_one a w :
  ∃ p' rq,
    act remote a w = {| this := p'; wire := wire w ++ [rq] |}
    ∧ _providerInfo p' = _providerInfo (this w)
    ∧ accessToken p' = accessToken (this w)
    ∧ key_param rq = apiKey (this w)
    ∧ token_param rq = accessToken (this w)
    ∧ is_whoami rq = is_connect a.
Proof.
  destruct a as [|op]; simpl.
  - rewrite onConnected_unfold.
    destruct (tokenEndpoint remote _ _); simpl; eexists _, _; by repeat split.
  - rewrite serve_sent. eexists _, _. unfold sent. repeat split.
    + apply request_of_key.
    + apply request_of_token.
    + apply request_of_not_whoami.
Qed.

(** X7. Over any life of a provider (connections and served requests in any
    order, whatever the remote answers): every action sends exactly one
    request, every request carries the provider's API key and access token as
    [key] and [token], neither of the two ever changes, and there are as many
    "who am I" requests as connections. *)
Theorem every_request_carries_key_and_token (actions : list Action) w :
  _providerInfo (this (session remote actions w)) = _providerInfo (this w)
  ∧ accessToken (this (session remote actions w)) = accessToken (this w)
  ∧ ∃ later,
      wire (session remote actions w) = wire w ++ later
      ∧ length later = length actions
      ∧ Forall (λ rq, key_param rq = apiKey (this w)
                      ∧ token_param rq = accessToken (this w)) later
      ∧ length (List.filter is_whoami later)
        = length (List.filter is_connect actions).
Proof.
  unfold session. revert w. induction actions as [|a actions IH]; intros w.
  - simpl. repeat split. exists []. by rewrite app_nil_r.
  - cbn [fold_left].
    destruct (act_sends_one a w) as (p' & rq & -> & Hinfo & Htok & Hk & Ht & Hw).
    destruct (IH {| this := p'; wire := wire w ++ [rq] |})
      as (Hinfo' & Htok' & later & Hwire & Hlen & Hall & Hcount).
    simpl in *. rewrite Hinfo', Htok', Hinfo, Htok. repeat split.
    exists (rq :: later). rewrite Hwire, <-app_assoc. repeat split.
    + simpl. by rewrite Hlen.
    + constructor; [done|]. eapply Forall_impl; [exact Hall|].
      intros rq' [Hk' Ht']. unfold apiKey in *. simpl in *.
      by rewrite Hk', Ht', Hinfo, Htok.
    + simpl. rewrite Hw. destruct (is_connect a); simpl; by rewrite Hcount.
Qed.

(** X8. A failure of the remote call comes out of the method as it is, after
    that one request and no other, and changes nothing in the provider: so for
    [boards], [lists], [createCard] and [onConnected] (which then stores no
    member id). *)
Theorem transport_failure_surfaces_unchanged w (e : HttpError) :
  (∀ request,
     boardsEndpoint remote (wire w) (boards_request (this w)) = Rejected e →
     boards remote request w = (Rejected e, sent w (boards_request (this w))))
  ∧ (∀ request,
     listsEndpoint remote (wire w) (lists_request (this w) request) = Rejected e →
     lists remote request w
     = (Rejected e, sent w (lists_request (this w) request)))
  ∧ (∀ request,
     cardsEndpoint remote (wire w) (card_request (this w) request) = Rejected e →
     createCard remote request w
     = (Rejected e, sent w (card_request (this w) request)))
  ∧ (tokenEndpoint remote (wire w) (whoami_request (this w)) = Rejected e →
     onConnected remote w = (Rejected e, sent w (whoami_request (this w)))).
Proof.
  repeat split.
  - intros request He. by rewrite boards_unfold, He.
  - intros request He. by rewrite lists_unfold, He.
  - intros request He. by rewrite createCard_unfold, He.
  - intros He. by rewrite onConnected_unfold, He.
Qed.

(** X9. [createCard] hands back the body of the remote's answer as it came,
    after one [POST] of [/cards] whose query names the list, the name and the
    description of the request as [idList], [name] and [desc]. *)
Theorem createCard_passes_the_answer_through
    (request : TrelloCreateCardRequest) w resp :
  cardsEndpoint remote (wire w) (card_request (this w) request) = Fulfilled resp →
  createCard remote request w
  = (Fulfilled (body resp), sent w (card_request (this w) request))
  ∧ method (card_request (this w) request) = POST
  ∧ path (card_request (this w) request) = "/cards"
  ∧ param "idList" (card_request (this w) request) = Some (Some (listId request))
  ∧ param "name" (card_request (this w) request) = Some (Some (name request))
  ∧ param "desc" (card_request (this w) request)
    = Some (Some (description request)).
Proof. intros Hresp. by rewrite createCard_unfold, Hresp. Qed.


End TrelloExtras.

(** ** The directory of the embedded browser *)

Section DirectoryExtras.
Import Browser.
Variable host : Host.
Implicit Types (files : list FileInfo) (known : string).

Lemma scan_outcomes files known :
  match scan host files known with
  | Returns (Some f) =>
      ∃ before file after,
        files = before ++ file :: after ∧ FullName file = f
        ∧ locks host known file ∧ Forall (passes host known) before
  | Returns None => Forall (passes host known) files
  | Throws ex =>
      ∃ before file after,
        files = before ++ file :: after
        ∧ Forall (passes host known) before
        ∧ EqualsIgnoreCase host (Name file) known = true
        ∧ IsFileLocked host (FullName file) = Throws ex
  end.
Proof.
  induction files as [|file files IH]; simpl; [constructor|].
  destruct (EqualsIgnoreCase host (Extension file) ".lock") eqn:Hext.
  { exists [], file, files. repeat split; [by left|constructor]. }
  assert (Hshift :
    passes host known file →
    match scan host files known with
    | Returns (Some f) =>
        ∃ before file0 after,
          file :: files = before ++ file0 :: after ∧ FullName file0 = f
          ∧ locks host known file0 ∧ Forall (passes host known) before
    | Returns None => Forall (passes host known) (file :: files)
    | Throws ex =>
        ∃ before file0 after,
          file :: files = before ++ file0 :: after
          ∧ Forall (passes host known) before
          ∧ EqualsIgnoreCase host (Name file0) known = true
          ∧ IsFileLocked host (FullName file0) = Throws ex
    end).
  { intros Hpass. destruct (scan host files known) as [[f|]|ex].
    - destruct IH as (before & file0 & after & -> & Hf & Hl & Hb).
      exists (file :: before), file0, after. repeat split; try done.
      by constructor.
    - by constructor.
    - destruct IH as (before & file0 & after & -> & Hb & Hn & Hthrow).
      exists (file :: before), file0, after. repeat split; try done.
      by constructor. }
  destruct (EqualsIgnoreCase host (Name file) known) eqn:Hname.
  - destruct (IsFileLocked host (FullName file)) as [[]|ex] eqn:Hlocked.
    + exists [], file, files. repeat split; [by right|constructor].
    + apply Hshift. split; [done|by right].
    + exists [], file, files. repeat split; [constructor|done..].
  - apply Hshift. split; [done|by left].
Qed.

(** The four ways through [TryCheckUsage]. *)
Lemma TryCheckUsage_cases dir (known : option string) :
  let fresh := {| DirectoryPath := dir; LockFile := None |} in
  (DirectoryExists host dir = false
   ∧ TryCheckUsage host dir known = (false, fresh, []))
  ∨ (DirectoryExists host dir = true
     ∧ ∃ files, GetFiles host dir = Returns files
       ∧ Forall (passes host (default "History" known)) files
       ∧ TryCheckUsage host dir known = (false, fresh, []))
  ∨ (DirectoryExists host dir = true
     ∧ ∃ before file after,
         GetFiles host dir = Returns (before ++ file :: after)
         ∧ locks host (default "History" known) file
         ∧ Forall (passes host (default "History" known)) before
         ∧ TryCheckUsage host dir known
           = (true, {| DirectoryPath := dir; LockFile := Some (FullName file) |}, []))
  ∨ (DirectoryExists host dir = true
     ∧ ∃ ex,
         (GetFiles host dir = Throws ex
          ∨ ∃ before file after,
              GetFiles host dir = Returns (before ++ file :: after)
              ∧ Forall (passes host (default "History" known)) before
              ∧ EqualsIgnoreCase host (Name file) (default "History" known) = true
              ∧ IsFileLocked host (FullName file) = Throws ex)
         ∧ TryCheckUsage host dir known = (true, fresh, [Warning ex "IsInUse?"])).
Proof.
  intros fresh. unfold TryCheckUsage.
  destruct (DirectoryExists host dir) eqn:Hdir; simpl; [|by left].
  right. destruct (GetFiles host dir) as [files|ex] eqn:Hfiles.
  - pose proof (scan_outcomes files (default "History" known)) as Hscan.
    destruct (scan host files _) as [[f|]|ex].
    + destruct Hscan as (before & file & after & -> & <- & Hl & Hb).
      right. left. split; [done|]. by exists before, file, after.
    + left. split; [done|]. by exists files.
    + destruct Hscan as (before & file & after & -> & Hb & Hn & Hthrow).
      right. right. split; [done|]. exists ex. split; [|done].
      right. by exists before, file, after.
  - right. right. split; [done|]. exists ex. split; [by left|done].
Qed.

(** X11. When [TryCheckUsage] names a lock file, it reports the directory in
    use, and the file named is the first file of the directory's listing that
    has the extension [.lock] or is the known file (["History"] unless told
    otherwise) found locked; every file listed before it was looked at and
    passed. *)
Theorem TryCheckUsage_names_the_first_locking_file dir
    (known : option string) (f : string) :
  LockFile (TryCheckUsage host dir known).1.2 = Some f →
  (TryCheckUsage host dir known).1.1 = true
  ∧ (TryCheckUsage host dir known).2 = []
  ∧ DirectoryExists host dir = true
  ∧ ∃ before file after,
      GetFiles host dir = Returns (before ++ file :: after)
      ∧ FullName file = f
      ∧ locks host (default "History" known) file
      ∧ Forall (passes host (default "History" known)) before.
Proof.
  destruct (TryCheckUsage_cases dir known)
    as [[_ ->]|[(_ & files & _ & _ & ->)|[(Hdir & before & file & after & Hfiles & Hl & Hb & ->)
       |(_ & ex & _ & ->)]]]; simpl; try done.
  intros [= <-]. repeat split; [done|]. by exists before, file, after.
Qed.

(** X12. [TryCheckUsage] reports a directory free exactly when the directory
    does not exist, or its listing holds no [.lock] file and the known file,
    if there, is found not locked; it then names no lock file and logs
    nothing. *)
Theorem TryCheckUsage_reports_free dir (known : option string) :
  ((TryCheckUsage host dir known).1.1 = false ↔
   DirectoryExists host dir = false
   ∨ ∃ files, GetFiles host dir = Returns files
       ∧ Forall (passes host (default "History" known)) files)
  ∧ ((TryCheckUsage host dir known).1.1 = false →
     TryCheckUsage host dir known
     = (false, {| DirectoryPath := dir; LockFile := None |}, [])).
Proof.
  destruct (TryCheckUsage_cases dir known)
    as [[Hdir ->]|[(Hdir & files & Hfiles & Hpass & ->)
       |[(Hdir & before & file & after & Hfiles & Hl & Hb & ->)
       |(Hdir & ex & Hthrow & ->)]]]; simpl.
  - split; [|done]. split; [by left|done].
  - split; [|done]. split; [|done]. intros _. right. by exists files.
  - split; [|done]. split; [done|].
    intros [Hno|(files & Hfiles' & Hpass)]; [congruence|].
    rewrite Hfiles in Hfiles'. injection Hfiles' as <-.
    apply Forall_app in Hpass as [_ Hpass].
    apply Forall_cons in Hpass as [[Hext Hname] _].
    destruct Hl as [Hl|[Hl1 Hl2]]; [congruence|].
    destruct Hname; congruence.
  - split; [|done]. split; [done|].
    intros [Hno|(files & Hfiles' & Hpass)]; [congruence|].
    destruct Hthrow
      as [Hthrow|(before & file & after & Hfiles & Hb & Hn & Hthrow)];
      [congruence|].
    rewrite Hfiles in Hfiles'. injection Hfiles' as <-.
    apply Forall_app in Hpass as [_ Hpass].
    apply Forall_cons in Hpass as [[Hext Hname] _].
    destruct Hname; congruence.
Qed.

End DirectoryExtras.

Section ContextPathExtras.
Import Browser.
Variable host : Host.


Lemma passed_over_unfold i :
  passed_over host i =
  DirectoryExists host (candidate host i)
  && HasLocked host (TryCheckUsage host (candidate host i) None).1.2.
Proof. done. Qed.

(** The loop stops at the first candidate it does not pass over, or with the
    last one. *)
Lemma probe_first_fit n i path :
  0 < n →
  ∃ j, i ≤ j < i + n
    ∧ (probe host n i path).1 = Some (candidate host j)
    ∧ (∀ k, i ≤ k < j → passed_over host k = true)
    ∧ (passed_over host j = false ∨ j = i + n - 1).
Proof.
  revert i path. induction n as [|n IH]; intros i path Hn; [lia|].
  pose proof (passed_over_unfold i) as Hi. cbn [probe].
  destruct (DirectoryExists host (candidate host i)).
  - destruct (TryCheckUsage host (candidate host i) None)
      as [[isLocked lockInfo] logged]. simpl in Hi.
    destruct (HasLocked host lockInfo).
    + destruct n as [|n].
      * exists i. simpl. repeat split; [lia..| |right; lia]. intros; lia.
      * destruct (IH (S i) (Some (candidate host i))) as (j & Hj & Hr & Hb & Hl);
          [lia|].
        destruct (probe host (S n) (S i) _) as [result rest]. simpl in *.
        exists j. repeat split; [lia..|done| |].
        -- intros k Hk. destruct (decide (k = i)) as [->|]; [done|].
           apply Hb. lia.
        -- destruct Hl as [? | ->]; [by left|right; lia].
    + exists i. simpl. repeat split; [lia..| |by left]. intros; lia.
  - exists i. simpl. repeat split; [lia..| |by left]. intros; lia.
Qed.

Lemma GetOrCreateContextParamsPath_result :
  (GetOrCreateContextParamsPath host).1 =
  if default_reusable host then Some (defaultPath host)
  else (probe host 1999 1 None).1.
Proof.
  unfold GetOrCreateContextParamsPath, default_reusable.
  generalize (probe host 1999 1 None). intros [result rest].
  destruct (TryCheckUsage host (defaultPath host) None)
    as [[[] info] logged]; cbn [negb andb fst]; [done|].
  by destruct (HasLocked host info).
Qed.


(** X14. [GetOrCreateContextParamsPath] never returns [null]. It returns the
    default directory [Browser-0] when that one is found free; otherwise it
    returns [Browser-i] for the least [i] from 1 on whose directory does not
    exist or is not marked locked, every candidate before it existing and
    being marked locked; and when all candidates up to 1999 are passed over,
    it returns [Browser-1999]. *)
Theorem GetOrCreateContextParamsPath_first_fit :
  (GetOrCreateContextParamsPath host).1 ≠ None
  ∧ if default_reusable host
    then (GetOrCreateContextParamsPath host).1 = Some (defaultPath host)
    else ∃ j : nat, (1 ≤ j ≤ 1999)%nat
      ∧ (GetOrCreateContextParamsPath host).1 = Some (candidate host j)
      ∧ (∀ k, 1 ≤ k < j → passed_over host k = true)
      ∧ (passed_over host j = false ∨ j = 1999).
Proof.
  rewrite GetOrCreateContextParamsPath_result.
  destruct (default_reusable host); [done|].
  destruct (probe_first_fit 1999 1 None) as (j & Hj & -> & Hb & Hl); [lia|].
  split; [done|]. exists j. repeat split; [lia..|done|].
  destruct Hl as [? | ->]; [by left|by right].
Qed.

(** X15. When the default directory cannot be taken and every candidate from
    [Browser-1] to [Browser-1999] exists and is marked locked, the path
    returned is [Browser-1999]: a directory that is marked locked. *)
Theorem all_candidates_locked_gives_the_last :
  default_reusable host = false →
  (∀ k : nat, (1 ≤ k ≤ 1999)%nat → passed_over host k = true) →
  (GetOrCreateContextParamsPath host).1 = Some (candidate host 1999)
  ∧ passed_over host 1999 = true.
Proof.
  intros Hdefault Hall. split; [|apply Hall; lia].
  rewrite GetOrCreateContextParamsPath_result, Hdefault.
  destruct (probe_first_fit 1999 1 None) as (j & Hj & -> & _ & [Hfree | ->]);
    [lia| |done].
  rewrite Hall in Hfree by lia. done.
Qed.




End ContextPathExtras.

(** ** Disposal of the browser service *)

Section DisposeExtras.
Import Browser.
Local Open Scope nat_scope.
Implicit Types (out : Outside) (s : Service).




(** X17. Once the service is marked disposed, [Dispose] does nothing, and
    [Dispose(false)] never does anything, whatever the state of the service.
    Disposing a live view marks the service disposed whatever throws on the
    way, so that a second [Dispose] finds nothing to do. *)
Theorem Dispose_happens_once out out' s (view : BrowserView) (again : bool) :
  _disposed s = false →
  _browserView s = Some view →
  IsDisposed out view = false →
  _disposed (Dispose out true s).1 = true
  ∧ Dispose out' again (Dispose out true s).1 = ((Dispose out true s).1, [])
  ∧ (∀ s', Dispose out false s' = (s', []))
  ∧ ∀ s', _disposed s' = true → Dispose out again s' = (s', []).
Proof.
  intros Hd Hview Hlive.
  assert (Hmarked : _disposed (Dispose out true s).1 = true).
  { unfold Dispose. rewrite Hd, Hview, Hlive.
    by destruct (teardown out _) as [torn [ex|]]. }
  repeat split; [done| | |].
  - unfold Dispose at 1. by rewrite Hmarked.
  - intros s'. unfold Dispose. by destruct (_disposed s').
  - intros s' Hs'. unfold Dispose. by rewrite Hs'.
Qed.

(** X18. [Dispose(true)] on a service whose view is [null] or reports itself
    disposed returns early: nothing is torn down, the directory is not
    deleted, and the service is not marked disposed, so that every later
    [Dispose(true)] goes through the same check again. *)
Theorem Dispose_without_live_view_marks_nothing out s :
  _disposed s = false →
  (_browserView s = None
   ∨ ∃ view, _browserView s = Some view ∧ IsDisposed out view = true) →
  (Dispose out true s).1 = s
  ∧ _disposed (Dispose out true s).1 = false
  ∧ Forall (λ e, ∃ entry, e = Logged entry) (Dispose out true s).2.
Proof.
  intros Hd Hview. unfold Dispose. rewrite Hd.
  destruct Hview as [-> | (view & -> & ->)]; simpl;
    (repeat split; [done|]); repeat constructor; eauto.
Qed.


End DisposeExtras.

(** ** Messages to and from the web view *)

Section BridgeExtras.
Import Browser Interop.
Local Open Scope nat_scope.

Lemma substring_prefix (m rest : string) :
  substring 0 (String.length m) (m +:+ rest) = m.
Proof. induction m as [|c m IH]; simpl; [by destruct rest|]. by rewrite IH. Qed.

Lemma length_append (a b : string) :
  String.length (a +:+ b) = String.length a + String.length b.
Proof. induction a as [|c a IH]; simpl; [done|]. by rewrite IH. Qed.

(** X20. The script [PostMessage] executes is the message between
    [window.postMessage(] and [,"*");], taken as it is: the message can be cut
    back out of the script, so two messages never give the same script; the
    target origin is always ["*"]. Without a view, [PostMessage] throws. *)
Theorem PostMessage_script_holds_the_message (message : string) (s : Service) :
  message_of_script (PostMessage_script message) = message
  ∧ (∀ message', PostMessage_script message = PostMessage_script message' →
       message = message')
  ∧ (_browserView s ≠ None →
     PostMessage message s
     = Returns ("window.postMessage(" +:+ message +:+ "," +:+ quote +:+ "*"
                +:+ quote +:+ ");"))
  ∧ (_browserView s = None → ∃ ex, PostMessage message s = Throws ex).
Proof.
  assert (Hback : ∀ m, message_of_script (PostMessage_script m) = m).
  { intros m. unfold message_of_script, PostMessage_script.
    rewrite !length_append.
    match goal with
    | |- substring _ ?n _ = _ =>
        replace n with (String.length m) by (simpl; lia)
    end.
    simpl.
    exact (substring_prefix m ("," +:+ quote +:+ "*" +:+ quote +:+ ");")). }
  repeat split.
  - apply Hback.
  - intros message' Hsame. by rewrite <-(Hback message), Hsame, Hback.
  - unfold PostMessage. by destruct (_browserView s).
  - intros Hnone. unfold PostMessage. rewrite Hnone. by eexists.
Qed.

(** X21. The message handler is one static slot: registering a handler
    replaces the one before, so that after any registrations only the handler
    registered last is run, by every instance of [PostMessageInterop] alike,
    and handlers registered earlier are never run again. *)
Theorem last_registered_handler_wins {Host : Type}
    (earlier : list (WindowMessageHandler Host))
    (last : WindowMessageHandler Host)
    (this : PostMessageInterop) (message origin : string)
    (st : Statics Host) (host : Host) :
  Handle this message origin (register_all (earlier ++ [last]) st) host
  = last this {| Message := message |} host.
Proof. unfold register_all. by rewrite fold_left_app. Qed.

End BridgeExtras.

(** * The further properties at work *)

Section ExtraInstances.
Import JS Collection Users Spec Samples.

Lemma folded_lookup_ignores_query_spelling_witness :
  (equal_ignoring_case (H := ascii_locale) "a@b.COM" "A@b.com"
   ∧ Forall2 (equal_ignoring_case (H := ascii_locale)) ["BOB@c.org"] ["bob@C.ORG"])
  ∧ resume users (getByEmail (H := ascii_locale) "a@b.COM" fold_case)
    = resume users (getByEmail (H := ascii_locale) "A@b.com" fold_case).
Proof.
  assert (Hq : equal_ignoring_case (H := ascii_locale) "a@b.COM" "A@b.com")
    by reflexivity.
  assert (He : Forall2 (equal_ignoring_case (H := ascii_locale))
                 ["BOB@c.org"] ["bob@C.ORG"])
    by (repeat constructor).
  split; [by split|].
  exact (proj1 (folded_lookup_ignores_query_spelling (H := ascii_locale)
                  users _ _ _ _ Hq He)).
Defined.

Lemma getByEmails_candidates_are_a_set_witness :
  (∀ e : string, e ∈ ["bob@c.org"] → e ∈ ["a@b.com"; "bob@c.org"; "a@b.com"])
  ∧ resume users (getByEmails (H := ascii_locale) ["bob@c.org"] exact_case)
    `sublist_of`
    resume users (getByEmails (H := ascii_locale)
                    ["a@b.com"; "bob@c.org"; "a@b.com"] exact_case).
Proof.
  assert (Hsub : ∀ e : string,
    e ∈ ["bob@c.org"] → e ∈ ["a@b.com"; "bob@c.org"; "a@b.com"]).
  { intros e ->%list_elem_of_singleton. apply list_elem_of_further, list_elem_of_here. }
  split; [exact Hsub|].
  exact (proj1 (getByEmails_candidates_are_a_set (H := ascii_locale)
                  users _ _ exact_case Hsub)).
Defined.

Lemma exact_hit_is_a_folded_hit_witness :
  resume users (getByEmail (H := ascii_locale) "a@b.com" exact_case)
  = Some (entityMapper team ann2)
  ∧ ∃ u', resume users (getByEmail (H := ascii_locale) "a@b.com" fold_case) = Some u'
          ∧ equal_ignoring_case (H := ascii_locale) (User.email u') "a@b.com".
Proof.
  split; [reflexivity|].
  exact (exact_hit_is_a_folded_hit (H := ascii_locale)
           users "a@b.com" (entityMapper team ann2) eq_refl).
Defined.

End ExtraInstances.

Section TrelloExtraInstances.
Import JS Trello TrelloSession Samples BrowserSamples.

Lemma transport_failure_surfaces_unchanged_witness :
  boardsEndpoint down (wire fresh) (boards_request (this fresh))
  = Rejected (TransportError 503 "unavailable")
  ∧ boards down {| organizationId := Some "org-1" |} fresh
    = (Rejected (TransportError 503 "unavailable"),
       sent fresh (boards_request (this fresh))).
Proof.
  split; [reflexivity|].
  exact (proj1 (transport_failure_surfaces_unchanged down fresh
                  (TransportError 503 "unavailable")) _ eq_refl).
Defined.

Lemma createCard_passes_the_answer_through_witness :
  cardsEndpoint trello (wire fresh)
    (card_request (this fresh)
       {| listId := "l1"; name := "card"; description := "text" |})
  = Fulfilled {| body := {| card_id := "c1"; card_url := "https://trello.com/c/c1" |} |}
  ∧ (createCard trello {| listId := "l1"; name := "card"; description := "text" |}
       fresh).1
    = Fulfilled {| card_id := "c1"; card_url := "https://trello.com/c/c1" |}.
Proof.
  split; [reflexivity|].
  exact (f_equal fst (proj1 (createCard_passes_the_answer_through trello
    {| listId := "l1"; name := "card"; description := "text" |} fresh _ eq_refl))).
Defined.


End TrelloExtraInstances.

Section BrowserExtraInstances.
Import Browser BrowserSamples.
Local Open Scope nat_scope.

Lemma TryCheckUsage_names_the_first_locking_file_witness :
  LockFile (TryCheckUsage all_locked "C:\Temp\Browser-0" None).1.2
  = Some "C:\Temp\Browser-0\a1b2.LOCK"
  ∧ (TryCheckUsage all_locked "C:\Temp\Browser-0" None).1.1 = true.
Proof.
  split; [reflexivity|].
  exact (proj1 (TryCheckUsage_names_the_first_locking_file all_locked
                  "C:\Temp\Browser-0" None _ eq_refl)).
Defined.

(** The known file is told by its name, whatever the case, and counts only
    when it is locked. *)
Example TryCheckUsage_of_a_running_browser :
  TryCheckUsage two_running "C:\Temp\Browser-1" None
  = (true,
     {| DirectoryPath := "C:\Temp\Browser-1";
        LockFile := Some "C:\Temp\Browser-1\history" |}, [])
  ∧ (GetOrCreateContextParamsPath two_running).1 = Some "C:\Temp\Browser-2".
Proof. vm_compute. split; reflexivity. Qed.

Lemma TryCheckUsage_reports_free_witness :
  (TryCheckUsage two_running "C:\Temp\Browser-2" None).1.1 = false
  ∧ TryCheckUsage two_running "C:\Temp\Browser-2" None
    = (false, {| DirectoryPath := "C:\Temp\Browser-2"; LockFile := None |}, []).
Proof.
  split; [reflexivity|].
  exact (proj2 (TryCheckUsage_reports_free two_running "C:\Temp\Browser-2" None)
           eq_refl).
Defined.

Lemma all_candidates_locked_gives_the_last_witness :
  (default_reusable all_locked = false
   ∧ ∀ k : nat, 1 ≤ k ≤ 1999 → passed_over all_locked k = true)
  ∧ (GetOrCreateContextParamsPath all_locked).1 = Some "C:\Temp\Browser-1999".
Proof.
  assert (Hall : ∀ k : nat, 1 ≤ k ≤ 1999 → passed_over all_locked k = true)
    by (intros k _; reflexivity).
  split; [split; [reflexivity|exact Hall]|].
  exact (proj1 (all_candidates_locked_gives_the_last all_locked eq_refl Hall)).
Defined.


Lemma Dispose_happens_once_witness :
  (_disposed live = false ∧ IsDisposed stubborn {| viewId := 1 |} = false)
  ∧ _disposed (Dispose stubborn true live).1 = true
  ∧ Dispose third_time_lucky true (Dispose stubborn true live).1
    = ((Dispose stubborn true live).1, []).
Proof.
  split; [by split|].
  destruct (Dispose_happens_once stubborn third_time_lucky live
              {| viewId := 1 |} true eq_refl eq_refl eq_refl)
    as (Hmarked & Hagain & _).
  by split.
Defined.

Lemma Dispose_without_live_view_marks_nothing_witness :
  _disposed never_initialized = false
  ∧ (Dispose third_time_lucky true never_initialized).1 = never_initialized.
Proof.
  split; [reflexivity|].
  exact (proj1 (Dispose_without_live_view_marks_nothing third_time_lucky
                  never_initialized eq_refl (or_introl eq_refl))).
Defined.


Example Dispose_of_a_stubborn_browser :
  Dispose stubborn true live
  = ({| _browserView := Some {| viewId := 1 |};
        _path := "C:\Temp\Browser-2"; _disposed := true |},
     [Called Unsubscribe; Called DisposeView; Called DisposeBrowser;
      Logged (Warning (Thrown "InvalidOperationException")
                "DotNetBrowser dispose failure")]).
Proof. vm_compute. reflexivity. Qed.

Lemma PostMessage_script_holds_the_message_witness :
  _browserView live ≠ None
  ∧ message_of_script (PostMessage_script "{}") = "{}".
Proof.
  split; [discriminate|].
  exact (proj1 (PostMessage_script_holds_the_message "{}" live)).
Defined.

End BrowserExtraInstances.
